(** * bcnotify: the watch registry, the filters and the dispatch loop

    A shallow embedding of [watcher.go].  Go strings are byte strings
    ([string]), the [Op] bit set is a 32-bit unsigned integer kept in [Z],
    the [watchPaths] slice is a [list] in insertion order, and every
    method of [*FileSystemWatcher] takes the watcher state and gives the
    new one back next to its Go result. *)

From Stdlib Require Import Bool Arith ZArith Lia List String Ascii.
Import ListNotations.

Local Open Scope string_scope.

(** ** The parts of Go's standard library the watcher calls *)

(** [path/filepath] on a Unix system ([Separator] is the slash, there is
    no volume name), on byte strings. *)
Module filepath.

Definition Separator : ascii := "/"%char.

Definition IsPathSeparator (c : ascii) : bool := Ascii.eqb c Separator.

(** [Split] cuts after the last separator: the directory part keeps the
    separator, the file part has none. *)
Fixpoint Split (p : string) : string * string :=
  match p with
  | EmptyString => (EmptyString, EmptyString)
  | String c r =>
      match Split r with
      | (EmptyString, f) =>
          if IsPathSeparator c then (String c EmptyString, f)
          else (EmptyString, String c f)
      | (d, f) => (String c d, f)
      end
  end.

(** The elements of a path: the pieces between separators. *)
Fixpoint elements (p : string) : list string :=
  match p with
  | EmptyString => [EmptyString]
  | String c r =>
      if IsPathSeparator c then EmptyString :: elements r
      else match elements r with
           | e :: es => String c e :: es
           | [] => [String c EmptyString]
           end
  end.

Definition rooted (p : string) : bool :=
  match p with
  | String c _ => IsPathSeparator c
  | EmptyString => false
  end.

(** One element of the path read by [Clean]; [out] is the cleaned path
    so far, last element first.  An empty element and a dot are
    dropped; a double dot removes the element before it, is dropped at
    the root, and is kept at the front of a relative path. *)
Definition cleanStep (isRooted : bool) (out : list string) (e : string)
  : list string :=
  if (e =? "") || (e =? ".") then out
  else if e =? ".." then
    match out with
    | top :: rest => if top =? ".." then e :: out else rest
    | [] => if isRooted then out else [e]
    end
  else e :: out.

Fixpoint joinElements (es : list string) : string :=
  match es with
  | [] => ""
  | [e] => e
  | e :: rest => e ++ "/" ++ joinElements rest
  end.

(** [Clean] gives the shortest path name equivalent to [p] by lexical
    processing; the empty string becomes a dot. *)
Definition Clean (p : string) : string :=
  let out := rev (fold_left (cleanStep (rooted p)) (elements p) []) in
  if rooted p then "/" ++ joinElements out
  else match out with
       | [] => "."
       | _ => joinElements out
       end.

(** [Dir] is all but the last element of the path, cleaned. *)
Definition Dir (p : string) : string := Clean (fst (Split p)).

(** [Join] of two elements: empty elements are ignored, the result is
    cleaned. *)
Definition Join (a b : string) : string :=
  match a, b with
  | EmptyString, EmptyString => ""
  | EmptyString, _ => Clean b
  | _, EmptyString => Clean a
  | _, _ => Clean (a ++ "/" ++ b)
  end.

(** *** Shell patterns

    [Match] follows the library's chunk-by-chunk matcher.  Names and
    patterns are read byte by byte, which is the library's behaviour on
    ASCII text.  The loops that the library runs over the pattern are
    given the length of the pattern as fuel; every round consumes at
    least one byte of the pattern. *)

Inductive MatchResult :=
| Matched (matched : bool)
| ErrBadPattern.

Inductive chunkResult :=
| ChunkOk (rest : string)
| ChunkFail
| ChunkBad.

Definition byteIs (c x : ascii) : bool := Ascii.eqb c x.

Fixpoint skipStars (pattern : string) : bool * string :=
  match pattern with
  | String c r =>
      if byteIs c "*" then (true, snd (skipStars r)) else (false, pattern)
  | EmptyString => (false, pattern)
  end.

(** The scan of [scanChunk]: up to the next star outside a character
    class; a backslash takes the byte after it along. *)
Fixpoint scanTo (inrange : bool) (pattern : string) : string * string :=
  match pattern with
  | EmptyString => (EmptyString, EmptyString)
  | String c r =>
      if byteIs c "\" then
        match r with
        | String c' r' =>
            let (chunk, rest) := scanTo inrange r' in
            (String c (String c' chunk), rest)
        | EmptyString => (String c EmptyString, EmptyString)
        end
      else if byteIs c "*" && negb inrange then (EmptyString, pattern)
      else
        let inrange' :=
          if byteIs c "[" then true
          else if byteIs c "]" then false else inrange in
        let (chunk, rest) := scanTo inrange' r in
        (String c chunk, rest)
  end.

Definition scanChunk (pattern : string) : bool * string * string :=
  let (star, pattern') := skipStars pattern in
  let (chunk, rest) := scanTo false pattern' in
  (star, chunk, rest).

(** [getEsc] reads one possibly escaped byte of a character class;
    [None] is [ErrBadPattern]. *)
Definition getEsc (chunk : string) : option (N * string) :=
  match chunk with
  | EmptyString => None
  | String c r =>
      if byteIs c "-" || byteIs c "]" then None
      else
        match (if byteIs c "\" then r else chunk) with
        | EmptyString => None
        | String x EmptyString => None
        | String x nchunk => Some (N_of_ascii x, nchunk)
        end
  end.

(** The ranges of a character class, up to its closing bracket. *)
Fixpoint classRanges (fuel : nat) (r : N) (nrange : nat) (matched : bool)
         (chunk : string) : option (bool * string) :=
  match fuel with
  | O => None
  | S fuel' =>
      match chunk with
      | String c rest =>
          if byteIs c "]" && (0 <? nrange)%nat then Some (matched, rest)
          else
            match getEsc chunk with
            | None => None
            | Some (lo, chunk1) =>
                let range :=
                  match chunk1 with
                  | String d chunk2 =>
                      if byteIs d "-" then getEsc chunk2
                      else Some (lo, chunk1)
                  | EmptyString => Some (lo, chunk1)
                  end in
                match range with
                | None => None
                | Some (hi, chunk3) =>
                    classRanges fuel' r (S nrange)
                      (matched || ((lo <=? r)%N && (r <=? hi)%N)) chunk3
                end
            end
      | EmptyString => None
      end
  end.

(** [matchChunk]: once the match has failed the rest of the chunk is
    still read, to report a malformed pattern, but the name is not. *)
Fixpoint matchChunk (fuel : nat) (failed : bool) (chunk s : string)
  : chunkResult :=
  match fuel with
  | O => ChunkBad
  | S fuel' =>
      match chunk with
      | EmptyString => if failed then ChunkFail else ChunkOk s
      | String c chunk1 =>
          let failed := failed || (s =? "") in
          if byteIs c "[" then
            let '(r, s') :=
              match s with
              | String x s1 =>
                  if failed then (0%N, s) else (N_of_ascii x, s1)
              | EmptyString => (0%N, s)
              end in
            let '(negated, chunk2) :=
              match chunk1 with
              | String n chunk2 =>
                  if byteIs n "^" then (true, chunk2) else (false, chunk1)
              | EmptyString => (false, chunk1)
              end in
            match classRanges (S (String.length chunk2)) r 0 false chunk2 with
            | None => ChunkBad
            | Some (m, chunk3) =>
                matchChunk fuel' (failed || Bool.eqb m negated) chunk3 s'
            end
          else if byteIs c "?" then
            match s with
            | String x s1 =>
                if failed then matchChunk fuel' failed chunk1 s
                else matchChunk fuel' (IsPathSeparator x) chunk1 s1
            | EmptyString => matchChunk fuel' failed chunk1 s
            end
          else
            match (if byteIs c "\" then chunk1 else chunk) with
            | EmptyString => ChunkBad
            | String l chunk' =>
                match s with
                | String x s1 =>
                    if failed then matchChunk fuel' failed chunk' s
                    else matchChunk fuel' (negb (byteIs l x)) chunk' s1
                | EmptyString => matchChunk fuel' failed chunk' s
                end
            end
      end
  end.

Definition runChunk (chunk s : string) : chunkResult :=
  matchChunk (S (String.length chunk)) false chunk s.

Fixpoint containsSeparator (s : string) : bool :=
  match s with
  | String c r => IsPathSeparator c || containsSeparator r
  | EmptyString => false
  end.

(** After a failed match the rest of the pattern is still checked for
    syntax. *)
Fixpoint checkRest (fuel : nat) (pattern : string) : MatchResult :=
  match fuel with
  | O => Matched false
  | S fuel' =>
      match pattern with
      | EmptyString => Matched false
      | _ =>
          let '(_, chunk, rest) := scanChunk pattern in
          match runChunk chunk "" with
          | ChunkBad => ErrBadPattern
          | _ => checkRest fuel' rest
          end
      end
  end.

(** The loop over the chunks of the pattern.  [retry] is the inner
    loop of a chunk that follows a star: it tries again one byte
    further, never beyond a separator. *)
Fixpoint matchLoop (fuel : nat) (pattern name : string) : MatchResult :=
  match fuel with
  | O => ErrBadPattern
  | S fuel' =>
      match pattern with
      | EmptyString => Matched (name =? "")
      | _ =>
          let '(star, chunk, rest) := scanChunk pattern in
          if star && (chunk =? "") then
            Matched (negb (containsSeparator name))
          else
            let retry :=
              fix retry (name : string) : MatchResult :=
                match name with
                | String x name1 =>
                    if IsPathSeparator x then checkRest fuel' rest
                    else
                      match runChunk chunk name1 with
                      | ChunkOk t =>
                          if (rest =? "") && negb (t =? "") then retry name1
                          else matchLoop fuel' rest t
                      | ChunkBad => ErrBadPattern
                      | ChunkFail => retry name1
                      end
                | EmptyString => checkRest fuel' rest
                end in
            let afterFail :=
              if star then retry name else checkRest fuel' rest in
            match runChunk chunk name with
            | ChunkOk t =>
                if (t =? "") || negb (rest =? "") then matchLoop fuel' rest t
                else afterFail
            | ChunkBad => ErrBadPattern
            | ChunkFail => afterFail
            end
      end
  end.

Definition Match (pattern name : string) : MatchResult :=
  matchLoop (S (String.length pattern)) pattern name.

End filepath.

(** ** Operations *)

(** [type Op uint32]: a set of file operations, one bit each. *)
Definition Op := Z.
Bind Scope Z_scope with Op.

Definition Create : Op := Z.shiftl 1 0.
Definition Write : Op := Z.shiftl 1 1.
Definition Remove : Op := Z.shiftl 1 2.
Definition Rename : Op := Z.shiftl 1 3.
Definition Chmod : Op := Z.shiftl 1 4.

Definition AllOps : Op :=
  Z.lor (Z.lor (Z.lor (Z.lor Create Write) Remove) Rename) Chmod.

Definition singleOps : list Op := [Create; Write; Remove; Rename; Chmod].

(** ** The registry *)

(** [watchPath]: a single path added to the watcher. *)
Record watchPath := mkWatchPath {
  path : string;
  pattern : string;
  ops : Op;
  isdir : bool
}.

(** [fsnotify.Event], the raw event of the event source. *)
Record fsnotifyEvent := mkRaw {
  rawName : string;
  rawOp : Z
}.

(** [Event], the notification handed to the caller. *)
Record Event := mkEvent {
  event : fsnotifyEvent;
  Name : string;
  EventOp : Op
}.

Definition wrapEvent (e : fsnotifyEvent) : Event :=
  mkEvent e (rawName e) (rawOp e).

Section Registry.

(** [fw.watchPaths] *)
Variable watchPaths : list watchPath.

(** The tests of the two loops of [findWatchPath]. *)
Definition fullPathMatch (name : string) (p : watchPath) : bool :=
  filepath.Clean name =? filepath.Clean (path p).

Definition directoryMatch (name : string) (p : watchPath) : bool :=
  filepath.Clean (filepath.Dir name) =? filepath.Clean (path p).

Definition findWatchPath (name : string) : option watchPath :=
  match find (fullPathMatch name) watchPaths with
  | Some p => Some p
  | None => find (directoryMatch name) watchPaths
  end.

Definition filterByPattern (name : string) : bool :=
  match findWatchPath name with
  | None => false
  | Some p =>
      if Nat.eqb (String.length (pattern p)) 0 then true
      else if negb (isdir p) then true
      else
        let (_, file) := filepath.Split name in
        match filepath.Match (pattern p) file with
        | filepath.ErrBadPattern => false
        | filepath.Matched m => if m then true else false
        end
  end.

Definition filterByOp (name : string) (op : Op) : bool :=
  match findWatchPath name with
  | None => false
  | Some p => if (Z.land (ops p) op =? op)%Z then true else false
  end.

End Registry.

(** ** Errors *)

(** The [error] values that pass through the watcher. *)
Inductive error :=
| ErrWatcherClosed                 (* the package variable of that name *)
| Errorf (msg : string)            (* [fmt.Errorf] of this package *)
| SystemError (msg : string)       (* an error of [os] or of the event source *)
| StackErr (underlying : error).   (* [*stackerr.Error] *)

(** [err == ErrWatcherClosed] compares with the package variable itself. *)
Definition isErrWatcherClosed (err : error) : bool :=
  match err with
  | ErrWatcherClosed => true
  | _ => false
  end.

Module stackerr.

(** Modelled from the spec: [stackerr] is a dependency of the
    repository, not part of it.  [Wrap] adds the stack to an error; by
    its documentation a nil error is given back as nil and an error
    that is already wrapped is given back as it is. *)
Definition Wrap (err : option error) : option error :=
  match err with
  | None => None
  | Some (StackErr u) => Some (StackErr u)
  | Some e => Some (StackErr e)
  end.

End stackerr.

(** ** The world outside the watcher *)

(** The file system as [filepath.Walk] finds it under a root: the names
    of a directory in the order [Walk] reads them, and the error of
    reading them, if any.  [Lstat] succeeds on every name that was read,
    so the [info] given to the walk function is never nil. *)
#[local] Set Warnings "-register-all".
Inductive fsnode :=
| File
| Directory (readErr : option error) (names : list (string * fsnode)).

(** What the calls into [os] and into the event source answer. *)
Record World := mkWorld {
  Stat : string -> error + bool;      (* [os.Stat]: the error, or [IsDir()] *)
  Subtree : string -> fsnode;         (* what [filepath.Walk] finds at a root *)
  AddErr : string -> option error;    (* the error of the source's [Add] *)
  CloseErr : option error             (* the error of the source's [Close] *)
}.

(** Modelled from the spec: the external event source
    ([*fsnotify.Watcher], a dependency) with its operations register,
    unregister and close.  It holds the set of registered names;
    unregistering a name it does not hold is an error. *)
Module fsnotify.

Record Watcher := mkWatcher {
  watches : list string;
  closeCalls : nat
}.

Definition holds (s : Watcher) (name : string) : bool :=
  existsb (String.eqb (filepath.Clean name)) (watches s).

Definition Add (w : World) (s : Watcher) (name : string)
  : option error * Watcher :=
  match AddErr w name with
  | Some e => (Some e, s)
  | None =>
      if holds s name then (None, s)
      else (None, mkWatcher (watches s ++ [filepath.Clean name]) (closeCalls s))
  end.

Definition Remove (s : Watcher) (name : string) : option error * Watcher :=
  if holds s name then
    (None,
     mkWatcher
       (filter (fun n => negb (String.eqb (filepath.Clean name) n)) (watches s))
       (closeCalls s))
  else (Some (SystemError "can't remove non-existent watch"), s).

Definition Close (w : World) (s : Watcher) : option error * Watcher :=
  (CloseErr w, mkWatcher (watches s) (S (closeCalls s))).

End fsnotify.

(** ** The watcher *)

(** A Go function either returns or panics. *)
Inductive outcome (A : Type) :=
| Returns (a : A)
| Panics.
Arguments Returns {A} a.
Arguments Panics {A}.

(** [chan struct{}] as far as [close] and a receive can tell. *)
Inductive chanState := ChanOpen | ChanClosed.

(** The built-in [close]: closing a closed channel panics. *)
Definition closeChan (c : chanState) : outcome chanState :=
  match c with
  | ChanOpen => Returns ChanClosed
  | ChanClosed => Panics
  end.

(** [FileSystemWatcher].  The mutex [closedMu] makes [Close] run as one
    step; it has no state of its own here. *)
Record FileSystemWatcher := mkFW {
  watcher : fsnotify.Watcher;
  watchPaths : list watchPath;
  isclosed : bool;
  close : chanState
}.

Definition setWatcher (fw : FileSystemWatcher) (s : fsnotify.Watcher) :=
  mkFW s (watchPaths fw) (isclosed fw) (close fw).

Definition setWatchPaths (fw : FileSystemWatcher) (ws : list watchPath) :=
  mkFW (watcher fw) ws (isclosed fw) (close fw).

(** [NewFileSystemWatcher], when [fsnotify.NewWatcher] succeeds. *)
Definition NewFileSystemWatcher : FileSystemWatcher :=
  mkFW (fsnotify.mkWatcher [] 0) [] false ChanOpen.

Definition Close (w : World) (fw : FileSystemWatcher)
  : outcome (option error * FileSystemWatcher) :=
  if isclosed fw then Returns (None, fw)
  else
    match closeChan (close fw) with
    | Panics => Panics
    | Returns c =>
        let (err, s) := fsnotify.Close w (watcher fw) in
        Returns (err, mkFW s (watchPaths fw) true c)
    end.

(** The states of the watcher that [NewFileSystemWatcher] and the
    methods produce: the flag [isclosed] is set exactly when the close
    channel is closed. *)
Definition closeConsistent (fw : FileSystemWatcher) : Prop :=
  isclosed fw = true <-> close fw = ChanClosed.

(** [n] calls of [Close] one after the other, with their results. *)
Fixpoint closeTimes (w : World) (n : nat) (fw : FileSystemWatcher)
  : outcome (list (option error) * FileSystemWatcher) :=
  match n with
  | O => Returns ([], fw)
  | S n' =>
      match Close w fw with
      | Panics => Panics
      | Returns (err, fw1) =>
          match closeTimes w n' fw1 with
          | Panics => Panics
          | Returns (errs, fw2) => Returns (err :: errs, fw2)
          end
      end
  end.

(** ** Waiting for events *)

(** What one round of the [select] of [WaitEvent] receives. *)
Inductive ready :=
| EventReady (e : fsnotifyEvent)     (* [event := <-fw.watcher.Events] *)
| ErrorReady (err : option error)    (* [err := <-fw.watcher.Errors] *)
| CloseReady.                        (* [<-fw.close] *)

(** [WaitEvent] against the sequence of what its [select] receives, round
    after round.  It gives its result and what is left of the sequence;
    [None] when the sequence ends with [WaitEvent] still blocked. *)
Fixpoint WaitEvent (fw : FileSystemWatcher) (sched : list ready)
  : option ((option Event * option error) * list ready) :=
  match sched with
  | [] => None
  | EventReady e :: rest =>
      if filterByOp (watchPaths fw) (rawName e) (rawOp e) then
        if filterByPattern (watchPaths fw) (rawName e) then
          Some ((Some (wrapEvent e), None), rest)
        else WaitEvent fw rest
      else WaitEvent fw rest
  | ErrorReady err :: rest => Some ((None, stackerr.Wrap err), rest)
  | CloseReady :: rest => Some ((None, Some ErrWatcherClosed), rest)
  end.

(** The test that [WaitEvent] makes on a raw event. *)
Definition delivered (fw : FileSystemWatcher) (e : fsnotifyEvent) : bool :=
  filterByOp (watchPaths fw) (rawName e) (rawOp e)
  && filterByPattern (watchPaths fw) (rawName e).

(** How far the goroutine of [NotifyEvent] got. *)
Inductive taskState :=
| TaskReturned      (* the function of the goroutine returned *)
| TaskBlocked       (* it waits in [WaitEvent] *)
| TaskRunning.      (* the model ran out of [fuel] *)

(** One call of the function given to [NotifyEvent]. *)
Definition notification := (option Event * option error)%type.

(** The goroutine started by [NotifyEvent]: the calls of [notify] it
    makes, in order. *)
Fixpoint NotifyEvent (fuel : nat) (fw : FileSystemWatcher) (sched : list ready)
  : list notification * taskState :=
  match fuel with
  | O => ([], TaskRunning)
  | S fuel' =>
      match WaitEvent fw sched with
      | None => ([], TaskBlocked)
      | Some ((ev, err), rest) =>
          match err with
          | Some e =>
              if isErrWatcherClosed e then ([], TaskReturned)
              else
                let (calls, st) := NotifyEvent fuel' fw rest in
                ((None, Some e) :: calls, st)
          | None =>
              let (calls, st) := NotifyEvent fuel' fw rest in
              ((ev, None) :: calls, st)
          end
      end
  end.

(** ** Adding and removing paths *)

(** [filepath.Walk] with a walk function that works on a state [St],
    as the library has it: the walk function is called once on each file
    and directory, the root first; for a directory it gets the error of
    reading the names, and the walk goes into the directory when that
    error and the result of the walk function are both nil.  The walk
    functions of this package return nil or a wrapped error, never
    [filepath.SkipDir], so every error they return ends the walk. *)
Section Walk.

Variable St : Type.
Variable walkFn : string -> bool -> option error -> St -> option error * St.

Fixpoint walk (p : string) (info : fsnode) (st : St) : option error * St :=
  match info with
  | File => walkFn p false None st
  | Directory err names =>
      let (err1, st1) := walkFn p true err st in
      match err, err1 with
      | None, None =>
          (fix walkNames (names : list (string * fsnode)) (st : St)
             : option error * St :=
             match names with
             | [] => (None, st)
             | (name, fileInfo) :: more =>
                 let (e, st') := walk (filepath.Join p name) fileInfo st in
                 match e with
                 | Some _ => (e, st')
                 | None => walkNames more st'
                 end
             end) names st1
      | _, _ => (err1, st1)
      end
  end.

End Walk.
Arguments walk {St} walkFn p info st.

Definition Walk (w : World) {St : Type}
  (root : string)
  (walkFn : string -> bool -> option error -> St -> option error * St)
  (st : St) : option error * St :=
  walk walkFn root (Subtree w root) st.

Section Methods.

Variable w : World.

(** [isDir]: whether the path is a directory, and the error if any. *)
Definition isDir (p : string) : bool * option error :=
  match Stat w p with
  | inl err => (false, stackerr.Wrap (Some err))
  | inr dir => (dir, None)
  end.

Definition isNil (err : option error) : bool :=
  match err with
  | None => true
  | Some _ => false
  end.

Definition AddFile (fw : FileSystemWatcher) (p : string) (o : Op)
  : option error * FileSystemWatcher :=
  let (dir, err) := isDir p in
  if isNil err && dir then (Some (Errorf ("Use AddDir instead for " ++ p)), fw)
  else if negb (isNil err) then (stackerr.Wrap err, fw)
  else
    let (err, s) := fsnotify.Add w (watcher fw) p in
    if negb (isNil err) then (stackerr.Wrap err, setWatcher fw s)
    else
      (None,
       setWatchPaths (setWatcher fw s)
                     (watchPaths fw ++ [mkWatchPath p "" o false])).

(** The loop of [removePath]: the index of the first entry with that
    very path. *)
Fixpoint indexOfPath (paths : list watchPath) (p : string) (index : nat)
  : option nat :=
  match paths with
  | [] => None
  | x :: rest =>
      if path x =? p then Some index else indexOfPath rest p (S index)
  end.

Definition removePath (paths : list watchPath) (p : string)
  : list watchPath :=
  match indexOfPath paths p 0 with
  | Some index => (firstn index paths ++ skipn (index + 1) paths)%list
  | None => paths
  end.

Definition RemoveFile (fw : FileSystemWatcher) (p : string)
  : option error * FileSystemWatcher :=
  let (dir, err) := isDir p in
  if isNil err && dir then
    (Some (Errorf ("Use RemoveDir instead for " ++ p)), fw)
  else if negb (isNil err) then (stackerr.Wrap err, fw)
  else
    let (err, s) := fsnotify.Remove (watcher fw) p in
    if negb (isNil err) then (stackerr.Wrap err, setWatcher fw s)
    else (None, setWatchPaths (setWatcher fw s) (removePath (watchPaths fw) p)).

Definition addDir (fw : FileSystemWatcher) (p pat : string) (o : Op)
  : option error * FileSystemWatcher :=
  let (dir, err) := isDir p in
  if isNil err && negb dir then
    (Some (Errorf ("Use AddFile instead for " ++ p)), fw)
  else if negb (isNil err) then (stackerr.Wrap err, fw)
  else
    let (err, s) := fsnotify.Add w (watcher fw) p in
    if negb (isNil err) then (stackerr.Wrap err, setWatcher fw s)
    else
      (None,
       setWatchPaths (setWatcher fw s)
                     (watchPaths fw ++ [mkWatchPath p pat o true])).

(** The function literal that [AddDir] gives to [filepath.Walk].  The
    result [e] of [addDir] is returned under the test [err != nil],
    where [err] is the parameter of the function literal. *)
Definition addDirWalkFn (pat : string) (o : Op)
  (p : string) (infoIsDir : bool) (err : option error)
  (fw : FileSystemWatcher) : option error * FileSystemWatcher :=
  if infoIsDir then
    let (e, fw') := addDir fw p pat o in
    if negb (isNil err) then (stackerr.Wrap e, fw') else (None, fw')
  else (None, fw).

Definition AddDir (fw : FileSystemWatcher) (p pat : string) (o : Op)
  (recursive : bool) : option error * FileSystemWatcher :=
  let (err, fw1) := addDir fw p pat o in
  if negb (isNil err) then (stackerr.Wrap err, fw1)
  else if recursive then
    let (err, fw2) := Walk w p (addDirWalkFn pat o) fw1 in
    if negb (isNil err) then (err, fw2) else (None, fw2)
  else (None, fw1).

Definition removeDir (fw : FileSystemWatcher) (p : string)
  : option error * FileSystemWatcher :=
  let (dir, err) := isDir p in
  if isNil err && negb dir then
    (Some (Errorf ("Use RemoveFile instead for " ++ p)), fw)
  else if negb (isNil err) then (stackerr.Wrap err, fw)
  else
    let (err, s) := fsnotify.Remove (watcher fw) p in
    if negb (isNil err) then (stackerr.Wrap err, setWatcher fw s)
    else (None, setWatchPaths (setWatcher fw s) (removePath (watchPaths fw) p)).

(** The function literal that [RemoveDir] gives to [filepath.Walk]. *)
Definition removeDirWalkFn
  (p : string) (infoIsDir : bool) (err : option error)
  (fw : FileSystemWatcher) : option error * FileSystemWatcher :=
  if infoIsDir then
    let (e, fw') := removeDir fw p in
    if negb (isNil err) then (stackerr.Wrap e, fw') else (None, fw')
  else (None, fw).

Definition RemoveDir (fw : FileSystemWatcher) (p : string)
  (recursive : bool) : option error * FileSystemWatcher :=
  let (err, fw1) := removeDir fw p in
  if negb (isNil err) then (stackerr.Wrap err, fw1)
  else if recursive then
    let (err, fw2) := Walk w p removeDirWalkFn fw1 in
    if negb (isNil err) then (err, fw2) else (None, fw2)
  else (None, fw1).

End Methods.

(** ** What the specification says, for comparison *)

(** What the specification says of that goroutine: one call of the
    function for each result of [WaitEvent], the event with a nil error
    or nil with the error, until the watcher is closed, when it ends
    without a call. *)
Fixpoint notifications (fw : FileSystemWatcher) (sched : list ready)
  : list notification * taskState :=
  match sched with
  | [] => ([], TaskBlocked)
  | EventReady e :: rest =>
      let (calls, st) := notifications fw rest in
      if delivered fw e then ((Some (wrapEvent e), None) :: calls, st)
      else (calls, st)
  | ErrorReady err :: rest =>
      let (calls, st) := notifications fw rest in
      ((None, stackerr.Wrap err) :: calls, st)
  | CloseReady :: _ => ([], TaskReturned)
  end.

(** The directories that [filepath.Walk] calls the walk function on, in
    the order of the walk, when the walk function returns nil each time:
    the root first, then what is below it; the names of a directory that
    cannot be read are not found. *)
Fixpoint walkDirs (p : string) (info : fsnode) : list string :=
  match info with
  | File => []
  | Directory err names =>
      p :: match err with
           | Some _ => []
           | None =>
               (fix below (names : list (string * fsnode)) : list string :=
                  match names with
                  | [] => []
                  | (name, fileInfo) :: more =>
                      (walkDirs (filepath.Join p name) fileInfo ++ below more)%list
                  end) names
           end
  end.

(** The subdirectories found by the walk: the directories other than
    the root. *)
Definition subDirs (p : string) (info : fsnode) : list string :=
  tl (walkDirs p info).

(** An addition of the directory [p] succeeds. *)
Definition addable (w : World) (p : string) : Prop :=
  Stat w p = inr true /\ AddErr w p = None.

Definition addableb (w : World) (p : string) : bool :=
  match Stat w p, AddErr w p with
  | inr true, None => true
  | _, _ => false
  end.

(** The directories of the walk whose names cannot be read: for these
    the walk function gets a non-nil [err]. *)
Fixpoint unreadableDirs (p : string) (info : fsnode) : list string :=
  match info with
  | File => []
  | Directory err names =>
      match err with
      | Some _ => [p]
      | None =>
          (fix below (names : list (string * fsnode)) : list string :=
             match names with
             | [] => []
             | (name, fileInfo) :: more =>
                 (unreadableDirs (filepath.Join p name) fileInfo ++ below more)%list
             end) names
      end
  end.

(** The entry that [addDir] makes for a directory. *)
Definition dirEntry (pat : string) (o : Op) (p : string) : watchPath :=
  mkWatchPath p pat o true.

(** [addDir] on each path in turn, whatever each call returns. *)
Definition addDirEach (w : World) (pat : string) (o : Op)
  (ps : list string) (fw : FileSystemWatcher) : FileSystemWatcher :=
  fold_left (fun fw p => snd (addDir w fw p pat o)) ps fw.

(** The registry that the specification describes after a recursive
    [AddDir]: one entry for the root and one for each subdirectory of
    the walk, all with the pattern and the operations of the call. *)
Definition specifiedWatchPaths (w : World) (fw : FileSystemWatcher)
  (root pat : string) (o : Op) : list watchPath :=
  (watchPaths fw
   ++ dirEntry pat o root
   :: map (dirEntry pat o) (subDirs root (Subtree w root)))%list.

(** The number of entries of the registry with a given path. *)
Definition entriesFor (ws : list watchPath) (p : string) : nat :=
  List.length (filter (fun e => path e =? p) ws).

(** ** A small world for the examples

    A directory [d] with a subdirectory [d/sub] and a file [d/x.txt]. *)
Definition exampleStat (p : string) : error + bool :=
  if p =? "d" then inr true
  else if p =? "d/sub" then inr true
  else if p =? "d/x.txt" then inr false
  else inl (SystemError "no such file or directory").

Definition exampleTree : fsnode :=
  Directory None [("sub", Directory None []); ("x.txt", File)].

(** Every call of the event source succeeds. *)
Definition exampleWorld : World :=
  mkWorld exampleStat (fun _ => exampleTree) (fun _ => None) None.

(** The event source cannot take another directory once it holds [d]:
    its [Add] fails for [d/sub]. *)
Definition fullWorld : World :=
  mkWorld exampleStat (fun _ => exampleTree)
          (fun p => if p =? "d/sub"
                    then Some (SystemError "no space left on device")
                    else None)
          None.

(** The registries and the schedule of the examples. *)
Definition testFile : watchPath := mkWatchPath "testdir/test.txt" "" Chmod false.
Definition testDir : watchPath := mkWatchPath "testdir" "*.ini" Write true.

Definition patternRegistry : list watchPath :=
  [mkWatchPath "d" "*.txt" AllOps true;
   mkWatchPath "txt" "[" AllOps true;
   mkWatchPath "e.txt" "e*" AllOps true;
   mkWatchPath "d/x.ini" "*.txt" Chmod false;
   mkWatchPath "z" "" 0 true].

Definition exampleWatcher : FileSystemWatcher :=
  setWatchPaths NewFileSystemWatcher
                [mkWatchPath "d" "*.txt" (Z.lor Write Chmod) true].

Definition exampleSchedule : list ready :=
  [EventReady (mkRaw "d/x.ini" Write);
   EventReady (mkRaw "d/x.txt" Write);
   ErrorReady (Some (SystemError "overflow"));
   EventReady (mkRaw "d/y.txt" Create);
   CloseReady;
   EventReady (mkRaw "d/z.txt" Write)].

(** The [Close] of the event source fails. *)
Definition closeFailsWorld : World :=
  mkWorld exampleStat (fun _ => exampleTree) (fun _ => None)
          (Some (SystemError "close failed")).

(** What is received is an event that fails a filter. *)
Definition dropped (fw : FileSystemWatcher) (r : ready) : Prop :=
  exists e, r = EventReady e /\ delivered fw e = false.

(** The methods leave the flag and the close channel alone. *)
Definition sameClose (fw fw' : FileSystemWatcher) : Prop :=
  isclosed fw' = isclosed fw /\ close fw' = close fw.

(** Between two states of the watcher: entries for directories, with
    the given pattern and operations and with paths among [qs], were
    appended to the registry, and nothing else was done to it. *)
Definition appended (pat : string) (o : Op) (qs : list string)
  (fw fw' : FileSystemWatcher) : Prop :=
  exists added,
    watchPaths fw' = (watchPaths fw ++ map (dirEntry pat o) added)%list /\
    incl added qs /\ sameClose fw fw'.

(** Between two states of the watcher: entries were taken out of the
    registry, none of them with a path outside [qs], and nothing was
    put in. *)
Definition removedOnly (qs : list string)
  (fw fw' : FileSystemWatcher) : Prop :=
  incl (watchPaths fw') (watchPaths fw) /\
  (forall e, In e (watchPaths fw) -> ~ In (path e) qs -> In e (watchPaths fw')) /\
  List.length (watchPaths fw') <= List.length (watchPaths fw) /\
  sameClose fw fw'.

(** The path of an event is that of the entry, or is right below it,
    up to [Clean]. *)
Definition concerns (name : string) (q : string) : bool :=
  (filepath.Clean name =? filepath.Clean q)
  || (filepath.Clean (filepath.Dir name) =? filepath.Clean q).

(** The pattern test of [filterByPattern] for the entry of a directory. *)
Definition patternAccepts (pat name : string) : bool :=
  (pat =? "")
  || match filepath.Match pat (snd (filepath.Split name)) with
     | filepath.Matched true => true
     | _ => false
     end.

(** ** Sequences of calls *)





(** * Properties *)

Local Open Scope list_scope.

(** ** The library model and the unit tests of the repository *)

(** The tables of the library's own tests, as far as they are ASCII. *)
Example Clean_examples :
  map filepath.Clean
      ["abc"; "abc/def"; "a/b/c"; "."; ".."; "../.."; "../../abc";
       "/abc"; "/"; ""; "abc/"; "abc/def/"; "a/b/c/"; "./"; "../";
       "../../"; "/abc/"; "abc//def//ghi"; "//abc"; "///abc";
       "//abc//"; "abc//"; "abc/./def"; "/./abc/def"; "abc/.";
       "abc/def/ghi/../jkl"; "abc/def/../ghi/../jkl"; "abc/def/..";
       "abc/def/../.."; "/abc/def/../.."; "abc/def/../../..";
       "/abc/def/../../.."; "abc/def/../../../ghi/jkl/../../../mno";
       "/../abc"; "abc/./../def"; "abc//./../def";
       "abc/../../././../def"]
  = ["abc"; "abc/def"; "a/b/c"; "."; ".."; "../.."; "../../abc";
     "/abc"; "/"; "."; "abc"; "abc/def"; "a/b/c"; "."; ".."; "../..";
     "/abc"; "abc/def/ghi"; "/abc"; "/abc"; "/abc"; "abc"; "abc/def";
     "/abc/def"; "abc"; "abc/def/jkl"; "abc/jkl"; "abc"; "."; "/";
     ".."; "/"; "../../mno"; "/abc"; "def"; "def"; "../../def"].
Proof. vm_compute. reflexivity. Qed.

Example Dir_Split_examples :
  map filepath.Dir
      [""; "."; "/."; "/"; "/foo"; "x/"; "abc"; "abc/def"; "a/b/.x";
       "a/b/c."; "a/b/c.x"]
  = ["."; "."; "/"; "/"; "/"; "x"; "."; "abc"; "a/b"; "a/b"; "a/b"]
  /\ map filepath.Split ["a/b"; "a/b/"; "a/"; "a"; "/"]
     = [("a/", "b"); ("a/b/", ""); ("a/", ""); ("", "a"); ("/", "")].
Proof. split; vm_compute; reflexivity. Qed.

Example Match_examples :
  map (fun pn => filepath.Match (fst pn) (snd pn))
      [("abc", "abc"); ("*", "abc"); ("*c", "abc"); ("a*", "a");
       ("a*", "abc"); ("a*", "ab/c"); ("a*/b", "abc/b");
       ("a*/b", "a/c/b"); ("a*b*c*d*e*/f", "axbxcxdxe/f");
       ("a*b*c*d*e*/f", "axbxcxdxexxx/f");
       ("a*b*c*d*e*/f", "axbxcxdxe/xxx/f");
       ("a*b*c*d*e*/f", "axbxcxdxexxx/fff");
       ("a*b?c*x", "abxbbxdbxebxczzx");
       ("a*b?c*x", "abxbbxdbxebxczzy"); ("ab[c]", "abc");
       ("ab[b-d]", "abc"); ("ab[e-g]", "abc"); ("ab[^c]", "abc");
       ("ab[^b-d]", "abc"); ("ab[^e-g]", "abc"); ("a\*b", "a*b");
       ("a\*b", "ab"); ("a?b", "a/b"); ("a*b", "a/b"); ("[\]a]", "]");
       ("[\-]", "-"); ("[x\-]", "x"); ("[x\-]", "-"); ("[x\-]", "z");
       ("[\-x]", "x"); ("[\-x]", "-"); ("[\-x]", "a"); ("*x", "xxx");
       ("*.txt", "x.txt"); ("*.txt", "x.ini"); ("*test*", "testdir");
       ("", ""); ("", "x")]
  = map filepath.Matched
      [true; true; true; true; true; false; true; false; true; true;
       false; false; true; false; true; true; false; false; false;
       true; true; false; false; false; true; true; true; true; false;
       true; true; false; true; true; false; true; true; false]
  /\ map (fun pn => filepath.Match (fst pn) (snd pn))
         [("[]a]", "]"); ("[-]", "-"); ("[x-]", "x"); ("[x-]", "-");
          ("[x-]", "z"); ("[-x]", "x"); ("[-x]", "-"); ("[-x]", "a");
          ("\", "a"); ("[a-b-c]", "a"); ("[", "a"); ("[^", "a");
          ("[^bc", "a"); ("a[", "a"); ("a[", "ab"); ("a[", "x");
          ("a/b[", "x")]
     = repeat filepath.ErrBadPattern 17.
Proof. split; vm_compute; reflexivity. Qed.

(** [TestFindWatchPath], [TestFilterByPattern] and [TestFilterByOp] of
    the repository's test file. *)
Example TestFindWatchPath :
  let ws := map (fun t => mkWatchPath t "" 0%Z false)
                ["test.txt"; "testdir"; "testdir/test.txt"] in
  findWatchPath ws "none" = None
  /\ map (fun t => option_map path (findWatchPath ws t))
         ["test.txt"; "testdir"; "testdir/test.txt"]
     = [Some "test.txt"; Some "testdir"; Some "testdir/test.txt"].
Proof. split; reflexivity. Qed.

Example TestFilterByPattern :
  let ws := map (fun t => mkWatchPath t "*test*" 0%Z false)
                ["test.txt"; "testdir"; "testdir/test.txt"] in
  filterByPattern ws "none" = false
  /\ map (filterByPattern ws) ["test.txt"; "testdir"; "testdir/test.txt"]
     = [true; true; true].
Proof. split; reflexivity. Qed.

Example TestFilterByOp :
  let ws := map (fun t => mkWatchPath t "" Write false)
                ["test.txt"; "testdir"; "testdir/test.txt"] in
  filterByOp ws "none" Write = false
  /\ map (fun t => filterByOp ws t Create)
         ["test.txt"; "testdir"; "testdir/test.txt"]
     = [false; false; false]
  /\ map (fun t => filterByOp ws t Write)
         ["test.txt"; "testdir"; "testdir/test.txt"]
     = [true; true; true].
Proof. repeat split; reflexivity. Qed.

(** ** The lookup *)

Lemma String_eqb_true (a b : string) : (a =? b) = true <-> a = b.
Proof. apply String.eqb_eq. Qed.

Lemma String_eqb_false (a b : string) : (a =? b) = false <-> a <> b.
Proof. apply String.eqb_neq. Qed.

(** What [find] returns is the first element that passes the test. *)
Lemma find_first (A : Type) (f : A -> bool) (l : list A) (x : A) :
  find f l = Some x <->
  exists l1 l2, l = l1 ++ x :: l2 /\ f x = true /\ forall y, In y l1 -> f y = false.
Proof.
  split.
  - induction l as [|a l IH]; simpl; [discriminate|].
    destruct (f a) eqn:Fa.
    + intros [= ->]. exists [], l. repeat split; auto. intros y [].
    + intros H. destruct (IH H) as (l1 & l2 & -> & Fx & Hl1).
      exists (a :: l1), l2. repeat split; auto.
      intros y [<-|Hy]; auto.
  - intros (l1 & l2 & -> & Fx & Hl1).
    induction l1 as [|a l1 IH]; simpl.
    + now rewrite Fx.
    + rewrite (Hl1 a (or_introl eq_refl)). apply IH.
      intros y Hy. apply Hl1. now right.
Qed.

Lemma find_exists (A : Type) (f : A -> bool) (l : list A) (x : A) :
  In x l -> f x = true -> exists y, find f l = Some y.
Proof.
  intros Hin Fx. destruct (find f l) as [y|] eqn:E; [now exists y|].
  now rewrite (find_none f l E x Hin) in Fx.
Qed.

(** A full-path match decides the lookup, whatever the second loop would
    find. *)
Lemma findWatchPath_full (ws : list watchPath) (name : string) (e : watchPath) :
  find (fullPathMatch name) ws = Some e -> findWatchPath ws name = Some e.
Proof. unfold findWatchPath. now intros ->. Qed.

Lemma findWatchPath_directory (ws : list watchPath) (name : string) :
  find (fullPathMatch name) ws = None ->
  findWatchPath ws name = find (directoryMatch name) ws.
Proof. unfold findWatchPath. now intros ->. Qed.

(** The entry found is in the registry, and it matches the path itself
    or the directory of the path. *)
Lemma findWatchPath_sound (ws : list watchPath) (name : string) (e : watchPath) :
  findWatchPath ws name = Some e ->
  In e ws /\
  (filepath.Clean (path e) = filepath.Clean name \/
   filepath.Clean (path e) = filepath.Clean (filepath.Dir name)).
Proof.
  unfold findWatchPath.
  destruct (find (fullPathMatch name) ws) as [p|] eqn:E.
  - intros [= <-]. apply find_some in E as [Hin Hm]. split; auto.
    left. symmetry. now apply String_eqb_true.
  - intros H. apply find_some in H as [Hin Hm]. split; auto.
    right. symmetry. now apply String_eqb_true.
Qed.

(** C1.  When a file [F] and the directory [D] of [F] are both in the
    registry, at any two places, the lookup of the path of [F] returns
    the first entry whose cleaned path is the cleaned path of [F]: an
    entry of [F], found by the first loop, and never [D], which only the
    second loop would match.  When [F] is the only entry registered for
    its path, the lookup returns [F] itself. *)
Theorem findWatchPath_file_wins (ws : list watchPath) (F D : watchPath) :
  In F ws -> In D ws ->
  isdir F = false -> isdir D = true ->
  filepath.Clean (path D) = filepath.Clean (filepath.Dir (path F)) ->
  filepath.Clean (path D) <> filepath.Clean (path F) ->
  directoryMatch (path F) D = true /\
  exists e,
    findWatchPath ws (path F) = Some e /\
    filepath.Clean (path e) = filepath.Clean (path F) /\
    e <> D /\
    (exists l1 l2,
        ws = l1 ++ e :: l2 /\
        forall x, In x l1 -> filepath.Clean (path x) <> filepath.Clean (path F)) /\
    ((forall x, In x ws ->
                filepath.Clean (path x) = filepath.Clean (path F) -> x = F) ->
     e = F).
Proof.
  intros HF HD _ _ Hparent Hdiff. split.
  - unfold directoryMatch. apply String_eqb_true. now symmetry.
  - assert (HmF : fullPathMatch (path F) F = true)
      by (unfold fullPathMatch; now apply String_eqb_true).
    destruct (find_exists _ _ _ _ HF HmF) as [e He].
    exists e. rewrite (findWatchPath_full _ _ _ He).
    pose proof (proj1 (find_first _ _ _ _) He) as (l1 & l2 & Hws & Hme & Hl1).
    assert (Hce : filepath.Clean (path e) = filepath.Clean (path F)).
    { symmetry. now apply String_eqb_true. }
    repeat split; auto.
    + intros ->. now apply Hdiff.
    + exists l1, l2. split; auto. intros x Hx Heq.
      specialize (Hl1 x Hx). unfold fullPathMatch in Hl1.
      apply String_eqb_false in Hl1. now apply Hl1.
    + intros Huniq. apply Huniq; auto.
      rewrite Hws. apply in_or_app. right. now left.
Qed.

Lemma findWatchPath_file_wins_witness :
  findWatchPath [testDir; testFile] "testdir/test.txt" = Some testFile /\
  findWatchPath [testFile; testDir] "testdir/test.txt" = Some testFile /\
  findWatchPath [testDir] "testdir/test.txt" = Some testDir.
Proof.
  assert (HDF : filepath.Clean (path testDir) <> filepath.Clean (path testFile))
    by (vm_compute; discriminate).
  assert (Huniq : forall ws, (forall x, In x ws -> x = testFile \/ x = testDir) ->
            forall x, In x ws ->
              filepath.Clean (path x) = filepath.Clean (path testFile) ->
              x = testFile).
  { intros ws Hws x Hx Hc. destruct (Hws x Hx) as [->| ->]; auto.
    now elim HDF. }
  split; [|split; [|reflexivity]].
  - destruct (findWatchPath_file_wins [testDir; testFile] testFile testDir
                (or_intror (or_introl eq_refl)) (or_introl eq_refl)
                eq_refl eq_refl eq_refl HDF) as (_ & e & Hfind & _ & _ & _ & He).
    change (findWatchPath [testDir; testFile] (path testFile) = Some testFile).
    rewrite Hfind. f_equal. apply He, Huniq. simpl. intuition.
  - destruct (findWatchPath_file_wins [testFile; testDir] testFile testDir
                (or_introl eq_refl) (or_intror (or_introl eq_refl))
                eq_refl eq_refl eq_refl HDF) as (_ & e & Hfind & _ & _ & _ & He).
    change (findWatchPath [testFile; testDir] (path testFile) = Some testFile).
    rewrite Hfind. f_equal. apply He, Huniq. simpl. intuition.
Defined.

(** ** The filters *)

Lemma filterByOp_found (ws : list watchPath) (name : string) (e : watchPath) (op : Op) :
  findWatchPath ws name = Some e ->
  filterByOp ws name op = (Z.land (ops e) op =? op)%Z.
Proof. unfold filterByOp. intros ->. now destruct (_ =? _)%Z. Qed.

Lemma singleOps_cases (op : Op) :
  In op singleOps ->
  op = Create \/ op = Write \/ op = Remove \/ op = Rename \/ op = Chmod.
Proof. simpl. intuition. Qed.

(** C4.  When the path resolves to an entry, [filterByOp] is the subset
    test of the operation against the mask of the entry; hence the mask
    [AllOps] lets each of the five operations pass, and a mask of one
    bit lets its own operation pass and none of the other four.  When
    the path resolves to no entry, [filterByOp] is false. *)
Theorem filterByOp_subset_test (ws : list watchPath) (name : string) :
  match findWatchPath ws name with
  | None => forall op, filterByOp ws name op = false
  | Some e =>
      (forall op, filterByOp ws name op = true <-> Z.land (ops e) op = op) /\
      (ops e = AllOps ->
       forall op, In op singleOps -> filterByOp ws name op = true) /\
      (In (ops e) singleOps ->
       forall op, In op singleOps ->
                  (filterByOp ws name op = true <-> op = ops e))
  end.
Proof.
  destruct (findWatchPath ws name) as [e|] eqn:E.
  - split; [|split].
    + intros op. rewrite (filterByOp_found _ _ _ _ E). apply Z.eqb_eq.
    + intros Hall op Hop. rewrite (filterByOp_found _ _ _ _ E), Hall.
      apply singleOps_cases in Hop.
      destruct Hop as [->|[->|[->|[->| ->]]]]; reflexivity.
    + intros Hm op Hop. rewrite (filterByOp_found _ _ _ _ E).
      apply singleOps_cases in Hm. apply singleOps_cases in Hop.
      destruct Hm as [->|[->|[->|[->| ->]]]];
        destruct Hop as [->|[->|[->|[->| ->]]]];
        split; intros H; try reflexivity; try discriminate H.
  - intros op. unfold filterByOp. now rewrite E.
Qed.

(** C10.  An event whose operation has no bit set passes [filterByOp]
    for every path that resolves to an entry, whatever the mask of the
    entry. *)
Theorem filterByOp_zero_operation (ws : list watchPath) (name : string) (e : watchPath) :
  findWatchPath ws name = Some e ->
  filterByOp ws name 0 = true.
Proof.
  intros E. rewrite (filterByOp_found _ _ _ _ E), Z.land_0_r. reflexivity.
Qed.

Lemma filterByOp_zero_operation_witness :
  findWatchPath patternRegistry "z/new.txt" = Some (mkWatchPath "z" "" 0 true) /\
  filterByOp patternRegistry "z/new.txt" 0 = true /\
  filterByOp patternRegistry "d/x.ini" 0 = true /\
  filterByOp patternRegistry "z/new.txt" Write = false.
Proof.
  split; [reflexivity|]. split; [|split; [|reflexivity]].
  - apply (filterByOp_zero_operation patternRegistry "z/new.txt"
             (mkWatchPath "z" "" 0 true)). reflexivity.
  - apply (filterByOp_zero_operation patternRegistry "d/x.ini"
             (mkWatchPath "d/x.ini" "*.txt" Chmod false)). reflexivity.
Defined.

(** The file part that [Split] gives has no separator, and the two
    parts make up the path. *)
Lemma Split_parts (p : string) :
  (fst (filepath.Split p) ++ snd (filepath.Split p))%string = p /\
  filepath.containsSeparator (snd (filepath.Split p)) = false.
Proof.
  induction p as [|c r [IHa IHb]]; simpl; [now split|].
  destruct (filepath.Split r) as [d f]; simpl in *.
  destruct d as [|c0 d].
  - simpl in IHa. subst r.
    destruct (filepath.IsPathSeparator c) eqn:Ec; simpl.
    + now split.
    + rewrite Ec. now split.
  - simpl in *. split; [now f_equal|assumption].
Qed.

Lemma pattern_not_empty (s : string) :
  s <> ""%string -> Nat.eqb (String.length s) 0 = false.
Proof. destruct s; [congruence|reflexivity]. Qed.

(** C5.  For a path that resolves to a directory entry with a pattern,
    [filterByPattern] is true exactly when the pattern matches the file
    part of the path, that is the path without everything up to its
    last separator; a malformed pattern gives false. *)
Theorem filterByPattern_directory (ws : list watchPath) (name : string) (e : watchPath) :
  findWatchPath ws name = Some e ->
  isdir e = true ->
  pattern e <> ""%string ->
  let file := snd (filepath.Split name) in
  (filterByPattern ws name = true <->
   filepath.Match (pattern e) file = filepath.Matched true) /\
  (filepath.Match (pattern e) file = filepath.ErrBadPattern ->
   filterByPattern ws name = false) /\
  (fst (filepath.Split name) ++ file)%string = name /\
  filepath.containsSeparator file = false.
Proof.
  intros E Hdir Hpat file.
  assert (Hf : filterByPattern ws name =
               match filepath.Match (pattern e) file with
               | filepath.ErrBadPattern => false
               | filepath.Matched m => m
               end).
  { unfold filterByPattern, file. rewrite E, (pattern_not_empty _ Hpat), Hdir.
    simpl. destruct (filepath.Split name) as [d f]. simpl.
    destruct (filepath.Match (pattern e) f) as [[|]|]; reflexivity. }
  rewrite Hf. repeat split; try apply Split_parts.
  - destruct (filepath.Match (pattern e) file) as [[|]|]; congruence.
  - now intros ->.
  - now intros ->.
Qed.

Lemma filterByPattern_directory_witness :
  findWatchPath patternRegistry "d/x.txt"
  = Some (mkWatchPath "d" "*.txt" AllOps true) /\
  filterByPattern patternRegistry "d/x.txt" = true /\
  filterByPattern patternRegistry "d/y.ini" = false /\
  filterByPattern patternRegistry "e.txt/x" = false /\
  filterByPattern patternRegistry "txt/x.txt" = false.
Proof.
  assert (Hne : forall a s, String a s <> ""%string) by discriminate.
  split; [reflexivity|]. split; [|split; [|split]].
  - destruct (filterByPattern_directory patternRegistry "d/x.txt"
                (mkWatchPath "d" "*.txt" AllOps true) eq_refl eq_refl (Hne _ _))
      as (Hiff & _).
    apply Hiff. reflexivity.
  - destruct (filterByPattern patternRegistry "d/y.ini") eqn:F; [|reflexivity].
    destruct (filterByPattern_directory patternRegistry "d/y.ini"
                (mkWatchPath "d" "*.txt" AllOps true) eq_refl eq_refl (Hne _ _))
      as (Hiff & _).
    apply Hiff in F. discriminate F.
  - destruct (filterByPattern patternRegistry "e.txt/x") eqn:F; [|reflexivity].
    destruct (filterByPattern_directory patternRegistry "e.txt/x"
                (mkWatchPath "e.txt" "e*" AllOps true) eq_refl eq_refl (Hne _ _))
      as (Hiff & _).
    apply Hiff in F. discriminate F.
  - destruct (filterByPattern_directory patternRegistry "txt/x.txt"
                (mkWatchPath "txt" "[" AllOps true) eq_refl eq_refl (Hne _ _))
      as (_ & Hbad & _).
    apply Hbad. reflexivity.
Defined.

(** C6.  For a path that resolves to an entry of a file added by
    itself, [filterByPattern] is true whatever the pattern of the entry
    is. *)
Theorem filterByPattern_file (ws : list watchPath) (name : string) (e : watchPath) :
  findWatchPath ws name = Some e ->
  isdir e = false ->
  filterByPattern ws name = true.
Proof.
  intros E Hfile. unfold filterByPattern. rewrite E, Hfile. simpl.
  now destruct (Nat.eqb _ _).
Qed.

Lemma filterByPattern_file_witness :
  findWatchPath patternRegistry "d/x.ini"
  = Some (mkWatchPath "d/x.ini" "*.txt" Chmod false) /\
  filepath.Match "*.txt" "x.ini" = filepath.Matched false /\
  filterByPattern patternRegistry "d/x.ini" = true /\
  filterByPattern patternRegistry "d/y.ini" = false.
Proof.
  split; [reflexivity|]. split; [reflexivity|]. split; [|reflexivity].
  apply (filterByPattern_file patternRegistry "d/x.ini"
           (mkWatchPath "d/x.ini" "*.txt" Chmod false)); reflexivity.
Defined.

(** When no entry resolves both filters are false. *)
Lemma filters_unwatched (ws : list watchPath) (name : string) (op : Op) :
  findWatchPath ws name = None ->
  filterByPattern ws name = false /\ filterByOp ws name op = false.
Proof. unfold filterByPattern, filterByOp. now intros ->. Qed.

(** ** Waiting for events *)

Lemma WaitEvent_event (fw : FileSystemWatcher) (e : fsnotifyEvent) (rest : list ready) :
  WaitEvent fw (EventReady e :: rest) =
  if delivered fw e then Some ((Some (wrapEvent e), None), rest)
  else WaitEvent fw rest.
Proof.
  unfold delivered. simpl.
  destruct (filterByOp _ _ _); [|reflexivity].
  now destruct (filterByPattern _ _).
Qed.

(** An event that [WaitEvent] returns came from the event source, with
    no error next to it, and passes both filters. *)
Lemma WaitEvent_returns_filtered (fw : FileSystemWatcher) (sched : list ready)
      (ev : Event) (err : option error) (rest : list ready) :
  WaitEvent fw sched = Some ((Some ev, err), rest) ->
  err = None /\
  ev = wrapEvent (event ev) /\
  In (EventReady (event ev)) sched /\
  filterByOp (watchPaths fw) (Name ev) (EventOp ev) = true /\
  filterByPattern (watchPaths fw) (Name ev) = true.
Proof.
  induction sched as [|r sched IH]; [discriminate|].
  destruct r as [e|err0|].
  - rewrite WaitEvent_event. destruct (delivered fw e) eqn:D.
    + intros [= <- <- <-]. unfold delivered in D.
      apply andb_true_iff in D as [D1 D2]. simpl. auto.
    + intros H. destruct (IH H) as (? & ? & ? & ? & ?).
      repeat split; auto. now right.
  - simpl. discriminate.
  - simpl. discriminate.
Qed.

(** [WaitEvent] goes past the events that fail a filter and stops at the
    first thing received that is not one of them. *)
Lemma WaitEvent_skips (fw : FileSystemWatcher) (skipped sched : list ready) :
  (forall r, In r skipped -> exists e, r = EventReady e /\ delivered fw e = false) ->
  WaitEvent fw (skipped ++ sched) = WaitEvent fw sched.
Proof.
  induction skipped as [|r skipped IH]; intros H; [reflexivity|].
  destruct (H r (or_introl eq_refl)) as (e & -> & D).
  simpl app. rewrite WaitEvent_event, D. apply IH.
  intros r Hr. apply H. now right.
Qed.

(** C7.  An event that [WaitEvent] returns passes [filterByOp] and
    [filterByPattern] on the registry; a raw event that fails one of
    them is dropped and [WaitEvent] goes on with what is received next,
    and stays blocked when nothing else is; a raw error is returned at
    once, as an error; when the close channel is ready [WaitEvent]
    returns [ErrWatcherClosed]. *)
Theorem WaitEvent_filters (fw : FileSystemWatcher) :
  (forall sched ev err rest,
      WaitEvent fw sched = Some ((Some ev, err), rest) ->
      err = None /\
      filterByOp (watchPaths fw) (Name ev) (EventOp ev) = true /\
      filterByPattern (watchPaths fw) (Name ev) = true) /\
  (forall e rest,
      filterByOp (watchPaths fw) (rawName e) (rawOp e) = true ->
      filterByPattern (watchPaths fw) (rawName e) = true ->
      WaitEvent fw (EventReady e :: rest)
      = Some ((Some (wrapEvent e), None), rest)) /\
  (forall e rest,
      filterByOp (watchPaths fw) (rawName e) (rawOp e) = false \/
      filterByPattern (watchPaths fw) (rawName e) = false ->
      WaitEvent fw (EventReady e :: rest) = WaitEvent fw rest) /\
  (forall skipped,
      (forall r, In r skipped -> exists e, r = EventReady e /\ delivered fw e = false) ->
      WaitEvent fw skipped = None) /\
  (forall err rest,
      exists wrapped,
        WaitEvent fw (ErrorReady (Some err) :: rest)
        = Some ((None, Some wrapped), rest) /\
        isErrWatcherClosed wrapped = false) /\
  (forall rest,
      WaitEvent fw (CloseReady :: rest)
      = Some ((None, Some ErrWatcherClosed), rest)).
Proof.
  split; [|split; [|split; [|split; [|split]]]].
  - intros sched ev err rest H.
    destruct (WaitEvent_returns_filtered _ _ _ _ _ H) as (? & ? & ? & ? & ?).
    auto.
  - intros e rest H1 H2. rewrite WaitEvent_event. unfold delivered.
    now rewrite H1, H2.
  - intros e rest H. rewrite WaitEvent_event. unfold delivered.
    destruct H as [-> | ->]; [reflexivity|].
    now rewrite andb_false_r.
  - intros skipped H.
    rewrite <- (app_nil_r skipped). now rewrite WaitEvent_skips.
  - intros err rest. simpl.
    destruct err; eexists; split; reflexivity.
  - reflexivity.
Qed.

(** ** The goroutine of [NotifyEvent] *)

Lemma Wrap_not_closed (err : option error) (e : error) :
  stackerr.Wrap err = Some e -> isErrWatcherClosed e = false.
Proof. destruct err as [[]|]; simpl; intros [= <-]; reflexivity. Qed.

Lemma WaitEvent_shorter (fw : FileSystemWatcher) (sched rest : list ready) res :
  WaitEvent fw sched = Some (res, rest) -> List.length rest < List.length sched.
Proof.
  induction sched as [|r sched IH]; [discriminate|].
  destruct r as [e| |]; simpl.
  - destruct (filterByOp _ _ _).
    + destruct (filterByPattern _ _).
      * intros [= <- <-]. lia.
      * intros H. specialize (IH H). lia.
    + intros H. specialize (IH H). lia.
  - intros [= <- <-]. lia.
  - intros [= <- <-]. lia.
Qed.

Lemma NotifyEvent_notifications (fw : FileSystemWatcher) (fuel : nat) :
  forall sched, List.length sched < fuel ->
  NotifyEvent fuel fw sched = notifications fw sched.
Proof.
  induction fuel as [|fuel IH]; intros sched Hlen; [lia|].
  induction sched as [|r sched IHs].
  - reflexivity.
  - assert (Hrest : NotifyEvent fuel fw sched = notifications fw sched)
      by (apply IH; simpl in Hlen; lia).
    assert (Hs : NotifyEvent (S fuel) fw sched = notifications fw sched)
      by (apply IHs; simpl in Hlen; lia).
    destruct r as [e|err|].
    + cbn [notifications]. unfold delivered.
      cbn [NotifyEvent WaitEvent].
      destruct (filterByOp _ _ _); cbn [andb].
      * destruct (filterByPattern _ _).
        -- rewrite Hrest. reflexivity.
        -- cbn [NotifyEvent] in Hs. rewrite Hs.
           now destruct (notifications fw sched).
      * cbn [NotifyEvent] in Hs. rewrite Hs.
        now destruct (notifications fw sched).
    + cbn [notifications NotifyEvent WaitEvent].
      destruct (stackerr.Wrap err) as [e|] eqn:W.
      * rewrite (Wrap_not_closed _ _ W), Hrest. reflexivity.
      * rewrite Hrest. reflexivity.
    + reflexivity.
Qed.

(** C9.  With fuel for every round, the goroutine of [NotifyEvent]
    makes the calls that the specification lists: the function is called
    with the event and a nil error for every result of [WaitEvent]
    without an error, and with nil and the error for every result with
    an error other than [ErrWatcherClosed]; on [ErrWatcherClosed] the
    goroutine returns and makes no call, neither then nor later. *)
Theorem NotifyEvent_calls (fw : FileSystemWatcher) (fuel : nat) (sched : list ready) :
  List.length sched < fuel ->
  NotifyEvent fuel fw sched = notifications fw sched /\
  match WaitEvent fw sched with
  | None => NotifyEvent fuel fw sched = ([], TaskBlocked)
  | Some ((ev, None), rest) =>
      NotifyEvent fuel fw sched
      = ((ev, None) :: fst (notifications fw rest), snd (notifications fw rest))
  | Some ((_, Some err), rest) =>
      if isErrWatcherClosed err then NotifyEvent fuel fw sched = ([], TaskReturned)
      else NotifyEvent fuel fw sched
           = ((None, Some err) :: fst (notifications fw rest),
              snd (notifications fw rest))
  end /\
  (forall ev err, In (ev, Some err) (fst (NotifyEvent fuel fw sched)) ->
                  ev = None /\ isErrWatcherClosed err = false) /\
  snd (NotifyEvent fuel fw sched) <> TaskRunning.
Proof.
  intros Hlen. split; [now apply NotifyEvent_notifications|].
  split; [|split].
  - destruct fuel as [|fuel]; [lia|]. cbn [NotifyEvent].
    destruct (WaitEvent fw sched) as [[[ev [err|]] rest]|] eqn:W;
      [| |reflexivity].
    + destruct (isErrWatcherClosed err); [reflexivity|].
      rewrite NotifyEvent_notifications
        by (apply WaitEvent_shorter in W; lia).
      now destruct (notifications fw rest).
    + rewrite NotifyEvent_notifications
        by (apply WaitEvent_shorter in W; lia).
      now destruct (notifications fw rest).
  - rewrite NotifyEvent_notifications by assumption.
    clear Hlen. induction sched as [|r sched IH]; simpl; [intros ? ? []|].
    destruct r as [e|err0|]; simpl.
    + destruct (notifications fw sched) as [calls st].
      destruct (delivered fw e); simpl in *; auto.
      intros ev err [H|H]; [discriminate H|eauto].
    + destruct (notifications fw sched) as [calls st]. simpl in *.
      intros ev err [H|H]; [|eauto].
      injection H as <- H. split; [reflexivity|].
      now apply (Wrap_not_closed err0).
    + intros ? ? [].
  - rewrite NotifyEvent_notifications by assumption.
    clear Hlen. induction sched as [|r sched IH]; simpl; [discriminate|].
    destruct r as [e|err0|]; simpl.
    + destruct (notifications fw sched) as [calls st].
      now destruct (delivered fw e).
    + now destruct (notifications fw sched) as [calls st].
    + discriminate.
Qed.

Lemma NotifyEvent_calls_witness :
  List.length exampleSchedule < 7 /\
  NotifyEvent 7 exampleWatcher exampleSchedule
  = ([(Some (wrapEvent (mkRaw "d/x.txt" Write)), None);
      (None, Some (StackErr (SystemError "overflow")))],
     TaskReturned).
Proof.
  assert (Hlen : List.length exampleSchedule < 7) by (simpl; lia).
  split; [exact Hlen|].
  rewrite (proj1 (NotifyEvent_calls exampleWatcher 7 exampleSchedule Hlen)).
  reflexivity.
Defined.

(** ** Closing *)

Lemma Close_closed (w : World) (fw : FileSystemWatcher) :
  isclosed fw = true -> Close w fw = Returns (None, fw).
Proof. unfold Close. now intros ->. Qed.

Lemma closeTimes_closed (w : World) (n : nat) (fw : FileSystemWatcher) :
  isclosed fw = true -> closeTimes w n fw = Returns (repeat None n, fw).
Proof.
  intros H. induction n as [|n IH]; simpl; [reflexivity|].
  now rewrite (Close_closed w fw H), IH.
Qed.

(** C8.  Any number of calls of [Close] one after the other: none
    panics, so the close channel is closed once, by the first call on an
    open watcher; every call after the first returns nil; the [Close] of
    the event source is called once if the watcher was open and not at
    all if it was closed already. *)
Theorem Close_idempotent (w : World) (fw : FileSystemWatcher) (n : nat) :
  closeConsistent fw ->
  exists first fw',
    closeTimes w (S n) fw = Returns (first :: repeat None n, fw') /\
    first = (if isclosed fw then None else CloseErr w) /\
    isclosed fw' = true /\
    close fw' = ChanClosed /\
    fsnotify.closeCalls (watcher fw')
    = fsnotify.closeCalls (watcher fw) + (if isclosed fw then 0 else 1) /\
    watchPaths fw' = watchPaths fw /\
    Close w fw' = Returns (None, fw').
Proof.
  intros Hc. destruct (isclosed fw) eqn:Closed.
  - exists None, fw. rewrite closeTimes_closed by assumption.
    repeat split; auto; try lia;
      [now apply Hc | now apply Close_closed].
  - assert (Hopen : close fw = ChanOpen).
    { destruct (close fw) eqn:E; [reflexivity|].
      apply Hc in E. congruence. }
    exists (CloseErr w),
      (mkFW (fsnotify.mkWatcher (fsnotify.watches (watcher fw))
                                (S (fsnotify.closeCalls (watcher fw))))
            (watchPaths fw) true ChanClosed).
    cbn [closeTimes]. unfold Close at 1.
    rewrite Closed, Hopen. cbn [closeChan fsnotify.Close].
    rewrite closeTimes_closed by reflexivity.
    repeat split. simpl. lia.
Qed.

Lemma Close_idempotent_witness :
  closeConsistent NewFileSystemWatcher /\
  exists fw',
    closeTimes closeFailsWorld 3 NewFileSystemWatcher
    = Returns ([Some (SystemError "close failed"); None; None], fw') /\
    fsnotify.closeCalls (watcher fw') = 1 /\
    close fw' = ChanClosed.
Proof.
  assert (Hc : closeConsistent NewFileSystemWatcher)
    by (split; discriminate).
  split; [exact Hc|].
  destruct (Close_idempotent closeFailsWorld NewFileSystemWatcher 2 Hc)
    as (first & fw' & Htimes & -> & _ & Hchan & Hcalls & _).
  exists fw'. repeat split; assumption.
Defined.

(** The flag is what keeps the second [close] of the channel away: on a
    state with a closed channel and the flag not set, [Close] panics. *)
Lemma Close_without_flag_panics (w : World) (s : fsnotify.Watcher) (ws : list watchPath) :
  Close w (mkFW s ws false ChanClosed) = Panics.
Proof. reflexivity. Qed.


(** ** Adding and removing directories *)

Lemma fsnode_induction (P : fsnode -> Prop) :
  P File ->
  (forall err names,
      (forall name n, In (name, n) names -> P n) -> P (Directory err names)) ->
  forall n, P n.
Proof.
  intros HF HD. fix IH 1. intros [|err names]; [exact HF|].
  apply HD. revert names. fix IHnames 1.
  intros [|[name0 n0] names] name n Hin.
  - destruct Hin.
  - destruct Hin as [E|Hin].
    + injection E as _ <-. apply IH.
    + apply (IHnames names name n Hin).
Qed.

Section Directories.

Variable w : World.
Variables (pat : string) (o : Op).

Lemma addableb_spec (p : string) : addableb w p = true <-> addable w p.
Proof.
  unfold addableb, addable.
  destruct (Stat w p) as [e|[|]]; destruct (AddErr w p);
    split; intros H; try discriminate H; try (now split);
    destruct H as [H1 H2]; discriminate.
Qed.

(** [addDir] makes an entry when the path is a directory and the
    event source takes it, and leaves the registry alone otherwise,
    returning an error. *)
Lemma addDir_result (fw : FileSystemWatcher) (p : string) :
  let (err, fw') := addDir w fw p pat o in
  isclosed fw' = isclosed fw /\ close fw' = close fw /\
  if addableb w p
  then err = None /\ watchPaths fw' = watchPaths fw ++ [dirEntry pat o p]
  else err <> None /\ watchPaths fw' = watchPaths fw.
Proof.
  unfold addDir, isDir, addableb, fsnotify.Add.
  destruct (Stat w p) as [e|[|]]; simpl.
  - destruct e; simpl; repeat split; auto; discriminate.
  - destruct (AddErr w p) as [e|]; simpl.
    + destruct e; simpl; repeat split; auto; discriminate.
    + destruct (fsnotify.holds _ _); simpl; repeat split; auto.
  - destruct (AddErr w p); repeat split; auto; discriminate.
Qed.

Lemma addDir_addable (fw : FileSystemWatcher) (p : string) :
  addable w p ->
  fst (addDir w fw p pat o) = None /\
  watchPaths (snd (addDir w fw p pat o)) = watchPaths fw ++ [dirEntry pat o p].
Proof.
  intros H. apply addableb_spec in H.
  pose proof (addDir_result fw p) as R.
  destruct (addDir w fw p pat o) as [err fw']. rewrite H in R.
  simpl. tauto.
Qed.

Lemma addDir_fails (fw : FileSystemWatcher) (p : string) :
  ~ addable w p ->
  fst (addDir w fw p pat o) <> None /\
  watchPaths (snd (addDir w fw p pat o)) = watchPaths fw.
Proof.
  intros H. pose proof (addDir_result fw p) as R.
  destruct (addDir w fw p pat o) as [err fw'].
  destruct (addableb w p) eqn:A.
  - apply addableb_spec in A. contradiction.
  - simpl. tauto.
Qed.

(** The registry after [addDir] on each path of a list: an entry for
    each path that could be added, in order. *)
Lemma addDirEach_watchPaths (ps : list string) (fw : FileSystemWatcher) :
  watchPaths (addDirEach w pat o ps fw)
  = watchPaths fw ++ map (dirEntry pat o) (filter (addableb w) ps).
Proof.
  revert fw. induction ps as [|p ps IH]; intros fw; simpl.
  - now rewrite app_nil_r.
  - unfold addDirEach in *. simpl. rewrite IH.
    pose proof (addDir_result fw p) as R.
    destruct (addDir w fw p pat o) as [err fw']. simpl.
    destruct (addableb w p); destruct R as (_ & _ & _ & ->).
    + simpl. now rewrite <- app_assoc.
    + reflexivity.
Qed.

Lemma addDirEach_app (ps qs : list string) (fw : FileSystemWatcher) :
  addDirEach w pat o (ps ++ qs) fw
  = addDirEach w pat o qs (addDirEach w pat o ps fw).
Proof. unfold addDirEach. apply fold_left_app. Qed.

Lemma addDirEach_cons (p : string) (ps : list string) (fw : FileSystemWatcher) :
  addDirEach w pat o (p :: ps) fw
  = addDirEach w pat o ps (snd (addDir w fw p pat o)).
Proof. reflexivity. Qed.

(** The walk of [AddDir].  When [addDir] succeeds on the directories
    that cannot be read, the walk function returns nil each time: the
    walk calls [addDir] on every directory it finds, the root first,
    and returns nil, whether the other calls of [addDir] succeed or
    not. *)
Lemma walk_addDir (info : fsnode) :
  forall (p : string) (fw : FileSystemWatcher),
    (forall q, In q (unreadableDirs p info) -> addable w q) ->
    walk (addDirWalkFn w pat o) p info fw
    = (None, addDirEach w pat o (walkDirs p info) fw).
Proof.
  induction info as [|err names IH] using fsnode_induction; intros p fw Hun.
  - reflexivity.
  - cbn [walk walkDirs unreadableDirs] in *.
    rewrite addDirEach_cons.
    unfold addDirWalkFn at 1.
    destruct (addDir w fw p pat o) as [e fw1] eqn:E. cbn [snd].
    destruct err as [err|].
    + assert (He : e = None).
      { specialize (Hun p (or_introl eq_refl)).
        apply (addDir_addable fw) in Hun. rewrite E in Hun. apply Hun. }
      subst e. reflexivity.
    + cbn [isNil negb]. clear E. revert fw1 Hun.
      induction names as [|[name n] names IHnames]; intros fw1 Hun.
      * reflexivity.
      * rewrite (IH name n (or_introl eq_refl))
          by (intros q Hq; apply Hun, in_or_app; now left).
        rewrite addDirEach_app.
        apply IHnames.
        -- intros name' n' Hin. apply (IH name' n'). now right.
        -- intros q Hq. apply Hun, in_or_app. now right.
Qed.

Lemma unreadableDirs_walkDirs (info : fsnode) :
  forall p q, In q (unreadableDirs p info) -> In q (walkDirs p info).
Proof.
  induction info as [|err names IH] using fsnode_induction; intros p q.
  - intros [].
  - cbn [walkDirs unreadableDirs]. destruct err as [err|].
    + intros [<-|[]]. now left.
    + intros H. right. revert H.
      induction names as [|[name n] names IHnames]; [intros []|].
      intros H. apply in_app_or in H as [H|H]; apply in_or_app.
      * left. apply (IH name n (or_introl eq_refl)), H.
      * right. apply IHnames; auto.
        intros name' n' Hin. apply (IH name' n'). now right.
Qed.

Lemma filter_addable (ps : list string) :
  (forall q, In q ps -> addable w q) -> filter (addableb w) ps = ps.
Proof.
  induction ps as [|p ps IH]; intros H; simpl; [reflexivity|].
  rewrite (proj2 (addableb_spec p) (H p (or_introl eq_refl))).
  f_equal. apply IH. intros q Hq. apply H. now right.
Qed.

(** A recursive [AddDir] returns nil as soon as [addDir] succeeds on
    the root and on the directories that cannot be read: the registry
    gets an entry for the root, and then one for each directory of the
    walk that [addDir] could add; a directory that it could not add
    leaves no entry and no error. *)
Lemma AddDir_recursive_result (fw : FileSystemWatcher) (root : string) :
  addable w root ->
  (forall q, In q (unreadableDirs root (Subtree w root)) -> addable w q) ->
  fst (AddDir w fw root pat o true) = None /\
  watchPaths (snd (AddDir w fw root pat o true))
  = watchPaths fw
    ++ dirEntry pat o root
    :: map (dirEntry pat o) (filter (addableb w) (walkDirs root (Subtree w root))).
Proof.
  intros Hroot Hun. unfold AddDir.
  destruct (addDir_addable fw root Hroot) as [He Hws].
  destruct (addDir w fw root pat o) as [e fw1]. simpl in He, Hws. subst e.
  cbn [isNil negb]. unfold Walk. rewrite (walk_addDir _ _ _ Hun).
  cbn [isNil negb fst snd]. split; [reflexivity|].
  now rewrite addDirEach_watchPaths, Hws, <- app_assoc.
Qed.

End Directories.

(** C2, as the code has it.  A recursive [AddDir] on a directory, when
    every [addDir] succeeds, returns nil and appends to the registry an
    entry for the root, made before the walk, and then an entry for
    every directory of the walk, all with the pattern and the operations
    of the call.  The walk begins at the root, so the root gets a second
    entry from the walk; each subdirectory found gets one. *)
Theorem AddDir_recursive_registers (w : World) (fw : FileSystemWatcher)
        (root pat : string) (o : Op) (err : option error)
        (names : list (string * fsnode)) :
  Subtree w root = Directory err names ->
  (forall q, In q (walkDirs root (Subtree w root)) -> addable w q) ->
  fst (AddDir w fw root pat o true) = None /\
  walkDirs root (Subtree w root) = root :: subDirs root (Subtree w root) /\
  watchPaths (snd (AddDir w fw root pat o true))
  = watchPaths fw
    ++ dirEntry pat o root :: dirEntry pat o root
    :: map (dirEntry pat o) (subDirs root (Subtree w root)).
Proof.
  intros Htree Hall.
  assert (Hdirs : walkDirs root (Subtree w root)
                  = root :: subDirs root (Subtree w root))
    by (unfold subDirs; rewrite Htree; reflexivity).
  assert (Hroot : addable w root)
    by (apply Hall; rewrite Hdirs; now left).
  destruct (AddDir_recursive_result w pat o fw root Hroot) as [Hnil Hws].
  { intros q Hq. apply Hall. now apply unreadableDirs_walkDirs. }
  split; [exact Hnil|]. split; [exact Hdirs|].
  rewrite Hws, (filter_addable w _ Hall), Hdirs. reflexivity.
Qed.

Lemma exampleWorld_addable (q : string) :
  In q (walkDirs "d" (Subtree exampleWorld "d")) -> addable exampleWorld q.
Proof. simpl. intros [<-|[<-|[]]]; split; reflexivity. Qed.

Lemma AddDir_recursive_registers_witness :
  Subtree exampleWorld "d" = exampleTree /\
  (forall q, In q (walkDirs "d" (Subtree exampleWorld "d")) ->
             addable exampleWorld q) /\
  subDirs "d" (Subtree exampleWorld "d") = ["d/sub"] /\
  fst (AddDir exampleWorld NewFileSystemWatcher "d" "*.txt" AllOps true) = None /\
  watchPaths (snd (AddDir exampleWorld NewFileSystemWatcher "d" "*.txt" AllOps true))
  = [mkWatchPath "d" "*.txt" AllOps true;
     mkWatchPath "d" "*.txt" AllOps true;
     mkWatchPath "d/sub" "*.txt" AllOps true].
Proof.
  destruct (AddDir_recursive_registers exampleWorld NewFileSystemWatcher
              "d" "*.txt" AllOps None
              [("sub", Directory None []); ("x.txt", File)]
              eq_refl exampleWorld_addable) as (Hnil & _ & Hws).
  split; [reflexivity|]. split; [exact exampleWorld_addable|].
  split; [reflexivity|]. split; [exact Hnil|exact Hws].
Defined.

(** C2, as the specification has it, fails on the directory [d] with
    the subdirectory [d/sub]: the registry is not the specified one, it
    holds two entries for [d]. *)
Lemma AddDir_recursive_root_twice :
  watchPaths (snd (AddDir exampleWorld NewFileSystemWatcher "d" "*.txt" AllOps true))
  <> specifiedWatchPaths exampleWorld NewFileSystemWatcher "d" "*.txt" AllOps
  /\ entriesFor
       (watchPaths (snd (AddDir exampleWorld NewFileSystemWatcher "d" "*.txt" AllOps true)))
       "d" <> 1.
Proof. vm_compute. split; discriminate. Qed.

(** The second entry of the root outlives a recursive [RemoveDir]: the
    walk of [RemoveDir] begins at the root too, which the event source
    no longer holds by then, so that [removeDir] fails there before it
    reaches the registry. *)
Example RemoveDir_recursive_leaves_root :
  RemoveDir exampleWorld
    (snd (AddDir exampleWorld NewFileSystemWatcher "d" "*.txt" AllOps true))
    "d" true
  = (None,
     mkFW (fsnotify.mkWatcher [] 0) [mkWatchPath "d" "*.txt" AllOps true]
          false ChanOpen).
Proof. reflexivity. Qed.

(** ** Failures during the walk *)

Section WalkResult.

Variable St : Type.
Variable walkFn : string -> bool -> option error -> St -> option error * St.

(** The walk function returns nil whenever its [err] is nil. *)
Hypothesis walkFn_nil : forall p dir st, fst (walkFn p dir None st) = None.

(** Then a walk in which every directory can be read returns nil. *)
Lemma walk_returns_nil (info : fsnode) :
  forall (p : string) (st : St),
    unreadableDirs p info = [] -> fst (walk walkFn p info st) = None.
Proof.
  induction info as [|err names IH] using fsnode_induction; intros p st Hun.
  - apply walkFn_nil.
  - cbn [walk unreadableDirs] in *.
    destruct err as [err|]; [discriminate Hun|].
    pose proof (walkFn_nil p true st) as Hnil.
    destruct (walkFn p true None st) as [err1 st1]. simpl in Hnil. subst err1.
    revert st1 Hun.
    induction names as [|[name n] names IHnames]; intros st1 Hun.
    + reflexivity.
    + apply app_eq_nil in Hun as [Hn Hmore].
      pose proof (IH name n (or_introl eq_refl) (filepath.Join p name) st1 Hn)
        as Hchild.
      destruct (walk walkFn (filepath.Join p name) n st1) as [e st'].
      simpl in Hchild. subst e.
      apply IHnames; auto.
      intros name' n' Hin. apply (IH name' n'). now right.
Qed.

End WalkResult.

Lemma addDirWalkFn_nil (w : World) (pat : string) (o : Op)
      (p : string) (dir : bool) (fw : FileSystemWatcher) :
  fst (addDirWalkFn w pat o p dir None fw) = None.
Proof.
  unfold addDirWalkFn. destruct dir; [|reflexivity].
  now destruct (addDir w fw p pat o).
Qed.

Lemma removeDirWalkFn_nil (w : World)
      (p : string) (dir : bool) (fw : FileSystemWatcher) :
  fst (removeDirWalkFn w p dir None fw) = None.
Proof.
  unfold removeDirWalkFn. destruct dir; [|reflexivity].
  now destruct (removeDir w fw p).
Qed.

(** When every directory of the walk can be read, a recursive [AddDir]
    and a recursive [RemoveDir] return nil as soon as the call on the
    root succeeds, whatever [addDir] and [removeDir] return during the
    walk. *)
Lemma recursive_calls_return_nil (w : World) (fw : FileSystemWatcher)
      (root pat : string) (o : Op) :
  unreadableDirs root (Subtree w root) = [] ->
  (fst (addDir w fw root pat o) = None ->
   fst (AddDir w fw root pat o true) = None) /\
  (fst (removeDir w fw root) = None ->
   fst (RemoveDir w fw root true) = None).
Proof.
  intros Hread. split; intros Hroot.
  - unfold AddDir. destruct (addDir w fw root pat o) as [e fw1].
    simpl in Hroot. subst e. cbn [isNil negb]. unfold Walk.
    pose proof (walk_returns_nil _ _ (addDirWalkFn_nil w pat o)
                  (Subtree w root) root fw1 Hread) as H.
    destruct (walk _ root (Subtree w root) fw1) as [e fw2].
    simpl in H. now subst e.
  - unfold RemoveDir. destruct (removeDir w fw root) as [e fw1].
    simpl in Hroot. subst e. cbn [isNil negb]. unfold Walk.
    pose proof (walk_returns_nil _ _ (removeDirWalkFn_nil w)
                  (Subtree w root) root fw1 Hread) as H.
    destruct (walk _ root (Subtree w root) fw1) as [e fw2].
    simpl in H. now subst e.
Qed.

(** C3 on the code.  In [fullWorld] the event source refuses [d/sub]:
    [addDir] fails on it during the walk of a recursive [AddDir] on [d],
    the entries made before stay in the registry, and [AddDir] returns
    nil.  In [exampleWorld], after [AddDir] on [d] alone, the event
    source does not hold [d/sub]: [removeDir] fails on it during the
    walk of a recursive [RemoveDir], which returns nil. *)
Theorem walk_failure_not_returned :
  (fst (addDir fullWorld
          (snd (addDir fullWorld NewFileSystemWatcher "d" "" AllOps))
          "d/sub" "" AllOps)
   = Some (StackErr (SystemError "no space left on device")) /\
   fst (AddDir fullWorld NewFileSystemWatcher "d" "" AllOps true) = None /\
   watchPaths (snd (AddDir fullWorld NewFileSystemWatcher "d" "" AllOps true))
   = [mkWatchPath "d" "" AllOps true; mkWatchPath "d" "" AllOps true]) /\
  (fst (removeDir exampleWorld
          (snd (removeDir exampleWorld
                  (snd (AddDir exampleWorld NewFileSystemWatcher "d" "" AllOps false))
                  "d"))
          "d/sub")
   = Some (StackErr (SystemError "can't remove non-existent watch")) /\
   fst (RemoveDir exampleWorld
          (snd (AddDir exampleWorld NewFileSystemWatcher "d" "" AllOps false))
          "d" true) = None).
Proof. repeat split; reflexivity. Qed.

(** ** The scenarios of the specification *)

(** A file added with the mask [Chmod]: of the five operations on it,
    one event is delivered, the one with the bit [Chmod]. *)
Example scenario_file_mask :
  let fw := snd (AddFile exampleWorld NewFileSystemWatcher "d/x.txt" Chmod) in
  NotifyEvent 6 fw
    (map (fun op => EventReady (mkRaw "d/x.txt" op))
         [Create; Write; Chmod; Rename; Remove])
  = ([(Some (wrapEvent (mkRaw "d/x.txt" Chmod)), None)], TaskBlocked).
Proof. reflexivity. Qed.

(** A directory added with a pattern, not recursively: of the writes to
    [d/x.ini] and [d/x.txt] the second is delivered. *)
Example scenario_directory_pattern :
  let fw := snd (AddDir exampleWorld NewFileSystemWatcher "d" "*.txt" AllOps false) in
  NotifyEvent 3 fw
    [EventReady (mkRaw "d/x.ini" Write); EventReady (mkRaw "d/x.txt" Write)]
  = ([(Some (wrapEvent (mkRaw "d/x.txt" Write)), None)], TaskBlocked).
Proof. reflexivity. Qed.

(** A directory added recursively: an event below the subdirectory is
    delivered, with the pattern of the root; without the recursion it is
    not. *)
Example scenario_recursive :
  let recursive := snd (AddDir exampleWorld NewFileSystemWatcher "d" "*.txt" AllOps true) in
  let flat := snd (AddDir exampleWorld NewFileSystemWatcher "d" "*.txt" AllOps false) in
  WaitEvent recursive [EventReady (mkRaw "d/sub/y.txt" Write)]
  = Some ((Some (wrapEvent (mkRaw "d/sub/y.txt" Write)), None), [])
  /\ WaitEvent recursive [EventReady (mkRaw "d/sub/y.ini" Write)] = None
  /\ WaitEvent flat [EventReady (mkRaw "d/sub/y.txt" Write)] = None.
Proof. repeat split; reflexivity. Qed.

(** [RemoveDir] without recursion after a recursive [AddDir]: the event
    source lets go of the root and keeps the subdirectory. *)
Example scenario_remove_root_only :
  let fw := snd (AddDir exampleWorld NewFileSystemWatcher "d" "*.txt" AllOps true) in
  let (err, fw') := RemoveDir exampleWorld fw "d" false in
  err = None
  /\ fsnotify.watches (watcher fw') = ["d/sub"]
  /\ WaitEvent fw' [EventReady (mkRaw "d/sub/y.txt" Write)]
     = Some ((Some (wrapEvent (mkRaw "d/sub/y.txt" Write)), None), []).
Proof. repeat split; reflexivity. Qed.

(** * Further properties of the code *)

(** ** The registry: removal and lookup *)

Lemma indexOfPath_found (paths : list watchPath) (p : string) :
  forall k i,
    indexOfPath paths p k = Some i ->
    exists l1 x l2,
      paths = l1 ++ x :: l2 /\ path x = p /\
      (forall y, In y l1 -> path y <> p) /\ i = k + List.length l1.
Proof.
  induction paths as [|a paths IH]; intros k i; simpl; [discriminate|].
  destruct (path a =? p) eqn:E.
  - intros [= <-]. exists [], a, paths. simpl.
    split; [reflexivity|]. split; [now apply String_eqb_true|].
    split; [intros y []|lia].
  - intros H. destruct (IH _ _ H) as (l1 & x & l2 & -> & Hx & Hl1 & ->).
    exists (a :: l1), x, l2. simpl.
    split; [reflexivity|]. split; [exact Hx|]. split; [|lia].
    intros y [<-|Hy]; [now apply String_eqb_false|now apply Hl1].
Qed.

Lemma indexOfPath_absent (paths : list watchPath) (p : string) :
  forall k, indexOfPath paths p k = None ->
            forall y, In y paths -> path y <> p.
Proof.
  induction paths as [|a paths IH]; intros k; simpl; [intros _ y []|].
  destruct (path a =? p) eqn:E; [discriminate|].
  intros H y [<-|Hy]; [now apply String_eqb_false|now apply (IH _ H)].
Qed.

Lemma indexOfPath_here (l1 l2 : list watchPath) (x : watchPath) (p : string) :
  path x = p -> (forall y, In y l1 -> path y <> p) ->
  forall k, indexOfPath (l1 ++ x :: l2) p k = Some (k + List.length l1).
Proof.
  intros Hx. induction l1 as [|a l1 IH]; intros Hl1 k; simpl.
  - rewrite (proj2 (String_eqb_true _ _) Hx). f_equal. lia.
  - rewrite (proj2 (String_eqb_false _ _) (Hl1 a (or_introl eq_refl))).
    rewrite IH by (intros y Hy; apply Hl1; now right). f_equal. lia.
Qed.

Lemma removePath_here (l1 l2 : list watchPath) (x : watchPath) (p : string) :
  path x = p -> (forall y, In y l1 -> path y <> p) ->
  removePath (l1 ++ x :: l2) p = l1 ++ l2.
Proof.
  intros Hx Hl1. unfold removePath.
  rewrite (indexOfPath_here l1 l2 x p Hx Hl1 0). simpl.
  rewrite firstn_app, firstn_all, Nat.sub_diag, app_nil_r.
  f_equal. rewrite skipn_app, skipn_all2 by lia.
  replace (List.length l1 + 1 - List.length l1) with 1 by lia.
  reflexivity.
Qed.

Lemma removePath_absent (ws : list watchPath) (p : string) :
  (forall y, In y ws -> path y <> p) -> removePath ws p = ws.
Proof.
  intros Habs. unfold removePath.
  destruct (indexOfPath ws p 0) as [i|] eqn:E; [|reflexivity].
  destruct (indexOfPath_found _ _ _ _ E) as (l1 & x & l2 & -> & Hx & _ & _).
  exfalso. apply (Habs x); auto. apply in_or_app. right. now left.
Qed.

(** X1.  [removePath] takes out the first entry whose path is the given
    string, byte for byte, and nothing else; without such an entry the
    registry stays as it is. *)
Theorem removePath_first_match (ws : list watchPath) (p : string) :
  ((forall y, In y ws -> path y <> p) /\ removePath ws p = ws) \/
  (exists l1 x l2,
      ws = l1 ++ x :: l2 /\ path x = p /\
      (forall y, In y l1 -> path y <> p) /\
      removePath ws p = l1 ++ l2).
Proof.
  destruct (indexOfPath ws p 0) as [i|] eqn:E.
  - right. destruct (indexOfPath_found _ _ _ _ E) as (l1 & x & l2 & -> & Hx & Hl1 & _).
    exists l1, x, l2. split; [reflexivity|]. split; [exact Hx|].
    split; [exact Hl1|]. now apply removePath_here.
  - left. pose proof (indexOfPath_absent ws p 0 E) as Habs.
    split; [exact Habs|]. now apply removePath_absent.
Qed.

(** X2.  The lookup finds nothing exactly when no entry is the path
    itself or the directory of the path, up to [Clean]: an entry for a
    directory further up does not count. *)
Theorem findWatchPath_none_iff (ws : list watchPath) (name : string) :
  findWatchPath ws name = None <->
  forall e, In e ws ->
            filepath.Clean (path e) <> filepath.Clean name /\
            filepath.Clean (path e) <> filepath.Clean (filepath.Dir name).
Proof.
  split.
  - intros H e He. unfold findWatchPath in H.
    destruct (find (fullPathMatch name) ws) eqn:E1; [discriminate|].
    pose proof (find_none _ _ E1 e He) as N1.
    pose proof (find_none _ _ H e He) as N2.
    unfold fullPathMatch in N1. unfold directoryMatch in N2.
    apply String_eqb_false in N1, N2. split; congruence.
  - intros H. destruct (findWatchPath ws name) as [e|] eqn:E; [|reflexivity].
    apply findWatchPath_sound in E as [He [Hc|Hc]];
      destruct (H e He) as [N1 N2]; contradiction.
Qed.

Lemma find_app (A : Type) (f : A -> bool) (l1 l2 : list A) :
  find f (l1 ++ l2) = match find f l1 with
                      | Some x => Some x
                      | None => find f l2
                      end.
Proof.
  induction l1 as [|a l1 IH]; simpl; [reflexivity|].
  now destruct (f a).
Qed.

(** X3.  The lookup in a registry that has grown. A full-path match
    among the older entries stays; else a full-path match among the
    newer entries wins, even over an older entry for the directory; else
    the first entry for the directory is found, the older ones first. *)
Theorem findWatchPath_app (ws more : list watchPath) (name : string) :
  findWatchPath (ws ++ more) name =
  match find (fullPathMatch name) ws with
  | Some e => Some e
  | None =>
      match find (fullPathMatch name) more with
      | Some e => Some e
      | None =>
          match find (directoryMatch name) ws with
          | Some e => Some e
          | None => find (directoryMatch name) more
          end
      end
  end.
Proof.
  unfold findWatchPath. rewrite !find_app.
  destruct (find (fullPathMatch name) ws); [reflexivity|].
  now destruct (find (fullPathMatch name) more).
Qed.

(** ** The operation filter on events with several bits *)

Lemma land_lor_subset (m a b : Z) :
  Z.land m (Z.lor a b) = Z.lor a b <-> Z.land m a = a /\ Z.land m b = b.
Proof.
  split.
  - intros H. split; apply Z.bits_inj'; intros n Hn;
      apply (f_equal (fun z => Z.testbit z n)) in H;
      rewrite Z.land_spec, !Z.lor_spec in H; rewrite Z.land_spec;
      destruct (Z.testbit m n), (Z.testbit a n), (Z.testbit b n);
      simpl in *; congruence.
  - intros [Ha Hb]. apply Z.bits_inj'; intros n Hn.
    apply (f_equal (fun z => Z.testbit z n)) in Ha, Hb.
    rewrite Z.land_spec in Ha, Hb. rewrite Z.land_spec, !Z.lor_spec.
    destruct (Z.testbit m n), (Z.testbit a n), (Z.testbit b n);
      simpl in *; congruence.
Qed.

(** X4.  An event that carries several operations at once passes
    [filterByOp] exactly when each of them passes: a watch for [Write]
    alone drops an event that is [Write] and [Chmod] together. *)
Theorem filterByOp_combined (ws : list watchPath) (name : string) (a b : Op) :
  filterByOp ws name (Z.lor a b) = filterByOp ws name a && filterByOp ws name b.
Proof.
  destruct (findWatchPath ws name) as [e|] eqn:E.
  - rewrite !(filterByOp_found _ _ e _ E).
    destruct (Z.land (ops e) (Z.lor a b) =? Z.lor a b)%Z eqn:H.
    + apply Z.eqb_eq, land_lor_subset in H as [Ha Hb].
      symmetry. apply andb_true_iff. split; now apply Z.eqb_eq.
    + symmetry. apply andb_false_iff.
      destruct (Z.land (ops e) a =? a)%Z eqn:Ha; [|now left].
      destruct (Z.land (ops e) b =? b)%Z eqn:Hb; [|now right].
      apply Z.eqb_eq in Ha, Hb. apply Z.eqb_neq in H.
      exfalso. apply H. now apply land_lor_subset.
  - unfold filterByOp. now rewrite E.
Qed.

(** ** [WaitEvent] on a whole schedule *)


Lemma not_dropped_returns (fw : FileSystemWatcher) (r : ready) (rest : list ready) :
  ~ dropped fw r ->
  exists res, WaitEvent fw (r :: rest) = Some (res, rest).
Proof.
  intros H. destruct r as [e|err|].
  - rewrite WaitEvent_event. destruct (delivered fw e) eqn:D; [eauto|].
    exfalso. apply H. now exists e.
  - simpl. eauto.
  - simpl. eauto.
Qed.

(** X5.  [WaitEvent] stays blocked exactly when everything received is
    an event that fails a filter; when it returns, it returns for the
    first thing received that is not such an event, and leaves what was
    received after it. *)
Theorem WaitEvent_first_kept (fw : FileSystemWatcher) (sched : list ready) :
  (WaitEvent fw sched = None <-> forall r, In r sched -> dropped fw r) /\
  (forall res rest,
      WaitEvent fw sched = Some (res, rest) ->
      exists skipped r,
        sched = skipped ++ r :: rest /\
        (forall x, In x skipped -> dropped fw x) /\
        ~ dropped fw r /\
        WaitEvent fw (r :: rest) = Some (res, rest)).
Proof.
  split.
  - split.
    + induction sched as [|r sched IH]; [intros _ x []|].
      destruct r as [e|err|]; [|discriminate|discriminate].
      rewrite WaitEvent_event. destruct (delivered fw e) eqn:D; [discriminate|].
      intros H x [<-|Hx]; [now exists e|now apply IH].
    + intros H. rewrite <- (app_nil_r sched). now rewrite WaitEvent_skips.
  - induction sched as [|r sched IH]; intros res rest; [discriminate|].
    destruct r as [e|err|].
    + rewrite WaitEvent_event. destruct (delivered fw e) eqn:D.
      * intros [= <- <-]. exists [], (EventReady e).
        split; [reflexivity|]. split; [intros x []|].
        split; [|now rewrite WaitEvent_event, D].
        intros (e' & [= <-] & D'). congruence.
      * intros H. destruct (IH _ _ H) as (skipped & r & -> & Hs & Hr & Hw).
        exists (EventReady e :: skipped), r.
        split; [reflexivity|]. split; [|now split].
        intros x [<-|Hx]; [now exists e|now apply Hs].
    + intros H. exists [], (ErrorReady err). simpl in H.
      injection H as <- <-.
      split; [reflexivity|]. split; [intros x []|].
      split; [|reflexivity]. intros (e' & E & _). discriminate E.
    + intros H. exists [], CloseReady. simpl in H.
      injection H as <- <-.
      split; [reflexivity|]. split; [intros x []|].
      split; [|reflexivity]. intros (e' & E & _). discriminate E.
Qed.

(** ** The goroutine of [NotifyEvent] after the close *)

Lemma notifications_until_close (fw : FileSystemWatcher) (pre post : list ready) :
  notifications fw (pre ++ CloseReady :: post)
  = (fst (notifications fw pre), TaskReturned).
Proof.
  induction pre as [|r pre IH]; [reflexivity|].
  destruct r as [e|err|]; simpl.
  - rewrite IH. destruct (notifications fw pre) as [calls st].
    now destruct (delivered fw e).
  - rewrite IH. now destruct (notifications fw pre) as [calls st].
  - reflexivity.
Qed.

(** X7.  Once the close channel is ready the goroutine of [NotifyEvent]
    has returned: its calls are those for what was received before, and
    nothing received afterwards reaches the function. *)
Theorem NotifyEvent_until_close (fw : FileSystemWatcher) (fuel : nat)
        (pre post : list ready) :
  List.length (pre ++ CloseReady :: post) < fuel ->
  NotifyEvent fuel fw (pre ++ CloseReady :: post)
  = (fst (NotifyEvent fuel fw pre), TaskReturned).
Proof.
  intros Hlen. rewrite length_app in Hlen. simpl in Hlen.
  rewrite !NotifyEvent_notifications by (rewrite ?length_app; simpl; lia).
  apply notifications_until_close.
Qed.

Lemma NotifyEvent_until_close_witness :
  List.length ([EventReady (mkRaw "d/x.txt" Write)]
               ++ CloseReady :: [EventReady (mkRaw "d/z.txt" Write)]) < 4 /\
  NotifyEvent 4 exampleWatcher
    ([EventReady (mkRaw "d/x.txt" Write)]
     ++ CloseReady :: [EventReady (mkRaw "d/z.txt" Write)])
  = ([(Some (wrapEvent (mkRaw "d/x.txt" Write)), None)], TaskReturned).
Proof.
  assert (Hlen : List.length ([EventReady (mkRaw "d/x.txt" Write)]
               ++ CloseReady :: [EventReady (mkRaw "d/z.txt" Write)]) < 4)
    by (simpl; lia).
  split; [exact Hlen|].
  rewrite (NotifyEvent_until_close exampleWatcher 4 _ _ Hlen). reflexivity.
Defined.

(** ** The results of the methods *)

Lemma AddFile_appends (w : World) (fw : FileSystemWatcher) (p : string) (o : Op) :
  fst (AddFile w fw p o) = None ->
  watchPaths (snd (AddFile w fw p o))
  = watchPaths fw ++ [mkWatchPath p "" o false].
Proof.
  unfold AddFile, isDir, fsnotify.Add.
  destruct (Stat w p) as [e|[|]].
  - destruct e; discriminate.
  - discriminate.
  - destruct (AddErr w p) as [e|].
    + destruct e; discriminate.
    + simpl. now destruct (fsnotify.holds _ _).
Qed.


(** X8.  [AddFile] returns nil exactly when the path is not a directory
    for [os.Stat] and the event source takes it; it then appends one
    entry, for a file, with no pattern and the operations given. When it
    returns an error the registry is as before. *)
Theorem AddFile_result (w : World) (fw : FileSystemWatcher) (p : string) (o : Op) :
  (fst (AddFile w fw p o) = None <-> Stat w p = inr false /\ AddErr w p = None) /\
  (fst (AddFile w fw p o) = None ->
   watchPaths (snd (AddFile w fw p o))
   = watchPaths fw ++ [mkWatchPath p "" o false]) /\
  (fst (AddFile w fw p o) <> None ->
   watchPaths (snd (AddFile w fw p o)) = watchPaths fw) /\
  sameClose fw (snd (AddFile w fw p o)).
Proof.
  unfold AddFile, isDir, fsnotify.Add, sameClose.
  destruct (Stat w p) as [e|[|]].
  - destruct e; simpl; repeat split; try discriminate; auto;
      intros [H _]; discriminate H.
  - simpl. repeat split; try discriminate; auto. intros [H _]; discriminate H.
  - destruct (AddErr w p) as [e|].
    + destruct e; simpl; repeat split; try discriminate; auto;
        intros [_ H]; discriminate H.
    + simpl. destruct (fsnotify.holds _ _); simpl; repeat split; auto; congruence.
Qed.

(** X9.  The four methods look at the kind of the path first. [AddFile]
    and [RemoveFile] turn a directory down, [AddDir] and [RemoveDir]
    turn down what is not a directory, the latter two with the error
    wrapped; when [os.Stat] fails all four return its error, wrapped. In
    each of these cases the watcher is left as it was, the event source
    included. *)
Theorem kind_checked_first (w : World) (fw : FileSystemWatcher) (p : string) :
  (Stat w p = inr true ->
   (forall o, AddFile w fw p o
              = (Some (Errorf ("Use AddDir instead for " ++ p)%string), fw)) /\
   RemoveFile w fw p
   = (Some (Errorf ("Use RemoveDir instead for " ++ p)%string), fw)) /\
  (Stat w p = inr false ->
   (forall pat o recursive,
       AddDir w fw p pat o recursive
       = (Some (StackErr (Errorf ("Use AddFile instead for " ++ p)%string)), fw)) /\
   (forall recursive,
       RemoveDir w fw p recursive
       = (Some (StackErr (Errorf ("Use RemoveFile instead for " ++ p)%string)), fw))) /\
  (forall e, Stat w p = inl e ->
   (forall o, AddFile w fw p o = (stackerr.Wrap (Some e), fw)) /\
   RemoveFile w fw p = (stackerr.Wrap (Some e), fw) /\
   (forall pat o recursive,
       AddDir w fw p pat o recursive = (stackerr.Wrap (Some e), fw)) /\
   (forall recursive, RemoveDir w fw p recursive = (stackerr.Wrap (Some e), fw))).
Proof.
  split; [|split].
  - intros H. unfold AddFile, RemoveFile, isDir. rewrite H. now split.
  - intros H. unfold AddDir, RemoveDir, addDir, removeDir, isDir. rewrite H.
    now split.
  - intros e H.
    unfold AddFile, RemoveFile, AddDir, RemoveDir, addDir, removeDir, isDir.
    rewrite H. destruct e; simpl; repeat split; reflexivity.
Qed.

Lemma RemoveFile_result (w : World) (fw : FileSystemWatcher) (p : string) :
  (fst (RemoveFile w fw p) = None ->
   watchPaths (snd (RemoveFile w fw p)) = removePath (watchPaths fw) p) /\
  (fst (RemoveFile w fw p) <> None ->
   watchPaths (snd (RemoveFile w fw p)) = watchPaths fw) /\
  sameClose fw (snd (RemoveFile w fw p)).
Proof.
  unfold RemoveFile, isDir, fsnotify.Remove, sameClose.
  destruct (Stat w p) as [e|[|]].
  - destruct e; simpl; repeat split; try discriminate; auto.
  - simpl. repeat split; try discriminate; auto.
  - simpl. destruct (fsnotify.holds _ _); simpl; repeat split; auto; congruence.
Qed.

Lemma removePath_app_found (ws more : list watchPath) (p : string) (y : watchPath) :
  In y ws -> path y = p ->
  removePath (ws ++ more) p = removePath ws p ++ more.
Proof.
  intros Hy Hp.
  destruct (indexOfPath ws p 0) as [i|] eqn:E.
  - destruct (indexOfPath_found _ _ _ _ E) as (l1 & x & l2 & -> & Hx & Hl1 & _).
    rewrite <- app_assoc. simpl.
    rewrite (removePath_here l1 (l2 ++ more) x p Hx Hl1).
    rewrite (removePath_here l1 l2 x p Hx Hl1).
    now rewrite app_assoc.
  - exfalso. now apply (indexOfPath_absent ws p 0 E y).
Qed.

(** X10.  [AddFile] and then [RemoveFile] of the same path, both
    returning nil. When the registry had no entry with that path it is
    again as it was. When it had one, the first of the older entries is
    the one that goes, and the entry just added stays at the end. *)
Theorem AddFile_RemoveFile (w : World) (fw : FileSystemWatcher) (p : string) (o : Op) :
  fst (AddFile w fw p o) = None ->
  fst (RemoveFile w (snd (AddFile w fw p o)) p) = None ->
  ((forall y, In y (watchPaths fw) -> path y <> p) ->
   watchPaths (snd (RemoveFile w (snd (AddFile w fw p o)) p)) = watchPaths fw) /\
  (forall y, In y (watchPaths fw) -> path y = p ->
   watchPaths (snd (RemoveFile w (snd (AddFile w fw p o)) p))
   = removePath (watchPaths fw) p ++ [mkWatchPath p "" o false]).
Proof.
  intros Hadd Hrem.
  pose proof (AddFile_appends w fw p o Hadd) as Hws.
  destruct (RemoveFile_result w (snd (AddFile w fw p o)) p) as (Hr & _).
  specialize (Hr Hrem). rewrite Hr, Hws. split.
  - intros Habs. rewrite removePath_here; auto. now rewrite app_nil_r.
  - intros y Hy Hp. now apply removePath_app_found with (y := y).
Qed.

Lemma AddFile_RemoveFile_witness :
  fst (AddFile exampleWorld NewFileSystemWatcher "d/x.txt" Chmod) = None /\
  watchPaths
    (snd (RemoveFile exampleWorld
            (snd (AddFile exampleWorld NewFileSystemWatcher "d/x.txt" Chmod))
            "d/x.txt")) = [] /\
  watchPaths
    (snd (RemoveFile exampleWorld
            (snd (AddFile exampleWorld
                    (snd (AddFile exampleWorld NewFileSystemWatcher "d/x.txt" Chmod))
                    "d/x.txt" Write))
            "d/x.txt"))
  = [mkWatchPath "d/x.txt" "" Write false].
Proof.
  split; [reflexivity|]. split.
  - apply (AddFile_RemoveFile exampleWorld NewFileSystemWatcher "d/x.txt" Chmod
             eq_refl eq_refl).
    intros y [].
  - apply (proj2 (AddFile_RemoveFile exampleWorld
             (snd (AddFile exampleWorld NewFileSystemWatcher "d/x.txt" Chmod))
             "d/x.txt" Write eq_refl eq_refl)
             (mkWatchPath "d/x.txt" "" Chmod false)).
    + now left.
    + reflexivity.
Defined.

(** X11.  A file added by itself, when no older entry stands for its
    path: an event on it is delivered exactly when its operations are
    among those given to [AddFile]; no pattern is applied. *)
Theorem AddFile_then_event (w : World) (fw : FileSystemWatcher) (p : string) (o : Op) :
  fst (AddFile w fw p o) = None ->
  (forall y, In y (watchPaths fw) ->
             filepath.Clean (path y) <> filepath.Clean p) ->
  forall op rest,
    WaitEvent (snd (AddFile w fw p o)) (EventReady (mkRaw p op) :: rest)
    = if (Z.land o op =? op)%Z
      then Some ((Some (wrapEvent (mkRaw p op)), None), rest)
      else WaitEvent (snd (AddFile w fw p o)) rest.
Proof.
  intros Hadd Hfresh op rest.
  pose proof (AddFile_appends w fw p o Hadd) as Hws.
  assert (Hfind : findWatchPath (watchPaths (snd (AddFile w fw p o))) p
                  = Some (mkWatchPath p "" o false)).
  { rewrite Hws. unfold findWatchPath. rewrite !find_app.
    destruct (find (fullPathMatch p) (watchPaths fw)) as [y|] eqn:E.
    - apply find_some in E as [Hy Hm]. unfold fullPathMatch in Hm.
      apply String_eqb_true in Hm. exfalso. now apply (Hfresh y).
    - simpl. unfold fullPathMatch. simpl. now rewrite String.eqb_refl. }
  rewrite WaitEvent_event. unfold delivered. simpl.
  rewrite (filterByOp_found _ _ _ _ Hfind). simpl.
  unfold filterByPattern. rewrite Hfind. simpl.
  now rewrite andb_true_r.
Qed.

Lemma AddFile_then_event_witness :
  fst (AddFile exampleWorld NewFileSystemWatcher "d/x.txt" (Z.lor Write Chmod)) = None /\
  WaitEvent (snd (AddFile exampleWorld NewFileSystemWatcher "d/x.txt" (Z.lor Write Chmod)))
            [EventReady (mkRaw "d/x.txt" Create); EventReady (mkRaw "d/x.txt" Chmod)]
  = Some ((Some (wrapEvent (mkRaw "d/x.txt" Chmod)), None), []).
Proof.
  split; [reflexivity|].
  rewrite (AddFile_then_event exampleWorld NewFileSystemWatcher "d/x.txt"
             (Z.lor Write Chmod) eq_refl (fun y (H : In y []) => match H with end)).
  simpl (_ =? _)%Z. cbv iota.
  rewrite (AddFile_then_event exampleWorld NewFileSystemWatcher "d/x.txt"
             (Z.lor Write Chmod) eq_refl (fun y (H : In y []) => match H with end)).
  reflexivity.
Defined.

(** ** What a walk does to the registry *)

Section WalkInvariant.

Variable St : Type.
Variable walkFn : string -> bool -> option error -> St -> option error * St.

(** A relation between the state before and the state after, for the
    directories that were worked on. *)
Variable R : list string -> St -> St -> Prop.

Hypothesis R_refl : forall st, R [] st st.
Hypothesis R_incl : forall qs qs' a b, incl qs qs' -> R qs a b -> R qs' a b.
Hypothesis R_trans :
  forall qs qs' a b c, R qs a b -> R qs' b c -> R (qs ++ qs') a c.
Hypothesis walkFn_file :
  forall p err st, R [] st (snd (walkFn p false err st)).
Hypothesis walkFn_dir :
  forall p err st, R [p] st (snd (walkFn p true err st)).

(** The relation holds across the walk, for the directories of the
    walk, whether the walk ends early or not. *)
Lemma walk_keeps (info : fsnode) :
  forall (p : string) (st : St),
    R (walkDirs p info) st (snd (walk walkFn p info st)).
Proof.
  induction info as [|err names IH] using fsnode_induction; intros p st.
  - apply walkFn_file.
  - cbn [walk walkDirs].
    pose proof (walkFn_dir p err st) as Hdir.
    destruct (walkFn p true err st) as [err1 st1]. cbn [snd] in Hdir.
    assert (Hstop : forall rest, R (p :: rest) st st1).
    { intros rest. apply (R_incl [p]); auto.
      intros q [<-|[]]. now left. }
    destruct err as [err|]; [apply Hstop|].
    destruct err1 as [err1|]; [apply Hstop|].
    apply (R_trans [p] _ _ st1); auto.
    clear Hdir Hstop. revert st1.
    induction names as [|[name n] names IHnames]; intros st1.
    + apply R_refl.
    + pose proof (IH name n (or_introl eq_refl) (filepath.Join p name) st1)
        as Hchild.
      destruct (walk walkFn (filepath.Join p name) n st1) as [e st'].
      cbn [snd] in Hchild.
      destruct e as [e|].
      * apply (R_incl (walkDirs (filepath.Join p name) n)); auto.
        apply incl_appl, incl_refl.
      * apply (R_trans _ _ _ st'); auto.
        apply IHnames. intros name' n' Hin. apply (IH name' n'). now right.
Qed.

End WalkInvariant.

Lemma sameClose_refl (fw : FileSystemWatcher) : sameClose fw fw.
Proof. now split. Qed.

Lemma sameClose_trans (a b c : FileSystemWatcher) :
  sameClose a b -> sameClose b c -> sameClose a c.
Proof. unfold sameClose. intros [? ?] [? ?]. split; congruence. Qed.

Section Appending.

Variables (w : World) (pat : string) (o : Op).

Lemma appended_refl (fw : FileSystemWatcher) : appended pat o [] fw fw.
Proof.
  exists []. simpl. rewrite app_nil_r.
  split; [reflexivity|]. split; [apply incl_refl|apply sameClose_refl].
Qed.

Lemma appended_incl (qs qs' : list string) (a b : FileSystemWatcher) :
  incl qs qs' -> appended pat o qs a b -> appended pat o qs' a b.
Proof.
  intros Hi (added & Hws & Ha & Hc). exists added.
  split; [exact Hws|]. split; [|exact Hc].
  intros q Hq. apply Hi, Ha, Hq.
Qed.

Lemma appended_trans (qs qs' : list string) (a b c : FileSystemWatcher) :
  appended pat o qs a b -> appended pat o qs' b c ->
  appended pat o (qs ++ qs') a c.
Proof.
  intros (ad1 & H1 & I1 & C1) (ad2 & H2 & I2 & C2). exists (ad1 ++ ad2).
  split; [now rewrite H2, H1, map_app, app_assoc|].
  split; [|now apply (sameClose_trans a b c)].
  intros q Hq. apply in_or_app. apply in_app_or in Hq as [Hq|Hq]; auto.
Qed.

Lemma addDir_appended (fw : FileSystemWatcher) (p : string) :
  appended pat o [p] fw (snd (addDir w fw p pat o)).
Proof.
  pose proof (addDir_result w pat o fw p) as R.
  destruct (addDir w fw p pat o) as [err fw']. cbn [snd].
  destruct R as (Hc1 & Hc2 & R).
  destruct (addableb w p); destruct R as [_ Hws].
  - exists [p]. split; [exact Hws|]. split; [apply incl_refl|now split].
  - exists []. simpl. rewrite app_nil_r.
    split; [exact Hws|]. split; [intros q []|now split].
Qed.

Lemma addDirWalkFn_appended (p : string) (dir : bool) (err : option error)
      (fw : FileSystemWatcher) :
  appended pat o (if dir then [p] else []) fw
           (snd (addDirWalkFn w pat o p dir err fw)).
Proof.
  unfold addDirWalkFn. destruct dir; [|apply appended_refl].
  pose proof (addDir_appended fw p) as H.
  destruct (addDir w fw p pat o) as [e fw']. cbn [snd] in H.
  now destruct (negb (isNil err)).
Qed.

Lemma AddDir_appended (fw : FileSystemWatcher) (p : string) (recursive : bool) :
  appended pat o (p :: if recursive then walkDirs p (Subtree w p) else [])
           fw (snd (AddDir w fw p pat o recursive)).
Proof.
  unfold AddDir.
  pose proof (addDir_appended fw p) as Hroot.
  destruct (addDir w fw p pat o) as [err fw1]. cbn [snd] in Hroot.
  assert (Hstop : forall rest, appended pat o (p :: rest) fw fw1).
  { intros rest. apply (appended_incl [p]); auto. intros q [<-|[]]. now left. }
  destruct (negb (isNil err)); [apply Hstop|].
  destruct recursive; [|apply Hstop].
  unfold Walk.
  pose proof (walk_keeps FileSystemWatcher (addDirWalkFn w pat o)
                (appended pat o) appended_refl appended_incl appended_trans
                (fun q e st => addDirWalkFn_appended q false e st)
                (fun q e st => addDirWalkFn_appended q true e st)
                (Subtree w p) p fw1) as Hwalk.
  destruct (walk (addDirWalkFn w pat o) p (Subtree w p) fw1) as [e fw2].
  cbn [snd] in Hwalk.
  assert (H : appended pat o ([p] ++ walkDirs p (Subtree w p)) fw fw2)
    by (apply (appended_trans _ _ _ fw1); auto).
  now destruct (negb (isNil e)).
Qed.

End Appending.

(** X12.  [AddDir] only ever appends to the registry, whether it returns
    nil or an error and however far the walk gets: the older entries
    keep their places, and what is appended are entries for directories,
    with the pattern and the operations of the call, for the root or for
    a directory of the walk; a file of the tree gets no entry. Without
    the recursion at most the root is appended. When the root cannot be
    added [AddDir] returns an error and the registry is as before. *)
Theorem AddDir_only_appends (w : World) (fw : FileSystemWatcher)
        (p pat : string) (o : Op) (recursive : bool) :
  appended pat o (p :: if recursive then walkDirs p (Subtree w p) else [])
           fw (snd (AddDir w fw p pat o recursive)) /\
  (~ addable w p ->
   fst (AddDir w fw p pat o recursive) <> None /\
   watchPaths (snd (AddDir w fw p pat o recursive)) = watchPaths fw).
Proof.
  split; [apply AddDir_appended|].
  intros Hno. destruct (addDir_fails w pat o fw p Hno) as [He Hws].
  unfold AddDir. destruct (addDir w fw p pat o) as [e fw1].
  cbn [fst snd] in He, Hws. destruct e as [e|]; [|contradiction].
  cbn [isNil negb fst snd]. split; [|exact Hws].
  destruct e; discriminate.
Qed.

Lemma removePath_removedOnly (ws : list watchPath) (p : string) :
  incl (removePath ws p) ws /\
  (forall e, In e ws -> path e <> p -> In e (removePath ws p)) /\
  List.length (removePath ws p) <= List.length ws.
Proof.
  destruct (indexOfPath ws p 0) as [i|] eqn:E.
  - destruct (indexOfPath_found _ _ _ _ E) as (l1 & x & l2 & -> & Hx & Hl1 & _).
    rewrite (removePath_here l1 l2 x p Hx Hl1). split; [|split].
    + intros e He. apply in_or_app. apply in_app_or in He as [He|He]; auto.
      right. now right.
    + intros e He Hne. apply in_or_app. apply in_app_or in He as [He|[<-|He]]; auto.
      contradiction.
    + rewrite !length_app. simpl. lia.
  - rewrite (removePath_absent ws p (indexOfPath_absent ws p 0 E)).
    split; [apply incl_refl|]. split; auto.
Qed.

Lemma removedOnly_refl (fw : FileSystemWatcher) : removedOnly [] fw fw.
Proof.
  split; [apply incl_refl|]. split; [auto|]. split; [lia|apply sameClose_refl].
Qed.

Lemma removedOnly_incl (qs qs' : list string) (a b : FileSystemWatcher) :
  incl qs qs' -> removedOnly qs a b -> removedOnly qs' a b.
Proof.
  intros Hi (H1 & H2 & H3 & H4). split; [exact H1|]. split; [|now split].
  intros e He Hno. apply H2; auto.
Qed.

Lemma removedOnly_trans (qs qs' : list string) (a b c : FileSystemWatcher) :
  removedOnly qs a b -> removedOnly qs' b c -> removedOnly (qs ++ qs') a c.
Proof.
  intros (A1 & A2 & A3 & A4) (B1 & B2 & B3 & B4).
  split; [intros e He; apply A1, B1, He|].
  split; [|split; [lia|now apply (sameClose_trans a b c)]].
  intros e He Hno. apply B2; [apply A2; auto|];
    intros Hq; apply Hno, in_or_app; auto.
Qed.

Lemma removeDir_removedOnly (w : World) (fw : FileSystemWatcher) (p : string) :
  removedOnly [p] fw (snd (removeDir w fw p)).
Proof.
  assert (Hsame : removedOnly [p] fw fw)
    by (apply (removedOnly_incl []); [intros q []|apply removedOnly_refl]).
  unfold removeDir, isDir, fsnotify.Remove.
  destruct (Stat w p) as [e|[|]].
  - destruct e; exact Hsame.
  - simpl. destruct (fsnotify.holds _ _); simpl.
    + destruct (removePath_removedOnly (watchPaths fw) p) as (H1 & H2 & H3).
      split; [exact H1|]. split; [|split; [exact H3|now split]].
      intros e He Hno. apply H2; auto. intros Hp. apply Hno. now left.
    + exact Hsame.
  - exact Hsame.
Qed.

Lemma removeDirWalkFn_removedOnly (w : World) (p : string) (dir : bool)
      (err : option error) (fw : FileSystemWatcher) :
  removedOnly (if dir then [p] else []) fw
              (snd (removeDirWalkFn w p dir err fw)).
Proof.
  unfold removeDirWalkFn. destruct dir; [|apply removedOnly_refl].
  pose proof (removeDir_removedOnly w fw p) as H.
  destruct (removeDir w fw p) as [e fw']. cbn [snd] in H.
  now destruct (negb (isNil err)).
Qed.

Lemma RemoveDir_removedOnly (w : World) (fw : FileSystemWatcher)
      (p : string) (recursive : bool) :
  removedOnly (p :: if recursive then walkDirs p (Subtree w p) else [])
              fw (snd (RemoveDir w fw p recursive)).
Proof.
  unfold RemoveDir.
  pose proof (removeDir_removedOnly w fw p) as Hroot.
  destruct (removeDir w fw p) as [err fw1]. cbn [snd] in Hroot.
  assert (Hstop : forall rest, removedOnly (p :: rest) fw fw1).
  { intros rest. apply (removedOnly_incl [p]); auto. intros q [<-|[]]. now left. }
  destruct (negb (isNil err)); [apply Hstop|].
  destruct recursive; [|apply Hstop].
  unfold Walk.
  pose proof (walk_keeps FileSystemWatcher (removeDirWalkFn w)
                removedOnly removedOnly_refl removedOnly_incl removedOnly_trans
                (fun q e st => removeDirWalkFn_removedOnly w q false e st)
                (fun q e st => removeDirWalkFn_removedOnly w q true e st)
                (Subtree w p) p fw1) as Hwalk.
  destruct (walk (removeDirWalkFn w) p (Subtree w p) fw1) as [e fw2].
  cbn [snd] in Hwalk.
  assert (H : removedOnly ([p] ++ walkDirs p (Subtree w p)) fw fw2)
    by (apply (removedOnly_trans _ _ _ fw1); auto).
  now destruct (negb (isNil e)).
Qed.

(** X13.  [RemoveDir] only ever takes entries out of the registry,
    whether it returns nil or an error: it puts none in, and an entry
    whose path is not, byte for byte, the root or a directory of the
    walk stays in; without the recursion only an entry of the root can
    go. The test is on the path as it was written when the entry was
    made: an entry added as [d/] is not taken out by a removal of [d]. *)
Theorem RemoveDir_only_removes (w : World) (fw : FileSystemWatcher)
        (p : string) (recursive : bool) :
  removedOnly (p :: if recursive then walkDirs p (Subtree w p) else [])
              fw (snd (RemoveDir w fw p recursive)) /\
  (fst (RemoveDir w fw p false) = None ->
   watchPaths (snd (RemoveDir w fw p false)) = removePath (watchPaths fw) p).
Proof.
  split; [apply RemoveDir_removedOnly|].
  unfold RemoveDir, removeDir, isDir, fsnotify.Remove.
  destruct (Stat w p) as [e|[|]].
  - destruct e; discriminate.
  - simpl. destruct (fsnotify.holds _ _); simpl; [reflexivity|discriminate].
  - discriminate.
Qed.

(** ** Sequences of calls *)





(** ** A directory and the events below it *)

(** X15.  A directory added without the recursion, for a path that no
    older entry stands for: an event is delivered exactly when its path
    is the directory itself or has it as its directory, up to [Clean],
    its operations are among those given, and its file part matches the
    pattern, if there is one. An event two levels down is not delivered. *)
Theorem AddDir_then_event (w : World) (fw : FileSystemWatcher)
        (root pat : string) (o : Op) (name : string) (op : Op) :
  fst (AddDir w fw root pat o false) = None ->
  findWatchPath (watchPaths fw) name = None ->
  delivered (snd (AddDir w fw root pat o false)) (mkRaw name op)
  = ((filepath.Clean name =? filepath.Clean root)
     || (filepath.Clean (filepath.Dir name) =? filepath.Clean root))
    && (Z.land o op =? op)%Z
    && ((pat =? "")
        || match filepath.Match pat (snd (filepath.Split name)) with
           | filepath.Matched true => true
           | _ => false
           end).
Proof.
  intros Hadd Hnone.
  assert (Hws : watchPaths (snd (AddDir w fw root pat o false))
                = watchPaths fw ++ [dirEntry pat o root]).
  { unfold AddDir in *.
    pose proof (addDir_result w pat o fw root) as R.
    destruct (addDir w fw root pat o) as [e fw1].
    destruct e as [e|]; [destruct e; discriminate Hadd|].
    cbn [isNil negb snd]. destruct R as (_ & _ & R).
    destruct (addableb w root); destruct R as [He Hws]; [exact Hws|].
    now elim He. }
  unfold delivered, filterByOp, filterByPattern. rewrite Hws. simpl.
  unfold findWatchPath in *. rewrite !find_app.
  destruct (find (fullPathMatch name) (watchPaths fw)); [discriminate|].
  rewrite Hnone. simpl. unfold fullPathMatch, directoryMatch. simpl.
  destruct (filepath.Clean name =? filepath.Clean root); simpl.
  - destruct (Z.land o op =? op)%Z; simpl; [|reflexivity].
    destruct pat as [|c pat]; simpl; [reflexivity|].
    destruct (filepath.Split name) as [d f]. simpl.
    now destruct (filepath.Match (String c pat) f) as [[|]|].
  - destruct (filepath.Clean (filepath.Dir name) =? filepath.Clean root); simpl;
      [|reflexivity].
    destruct (Z.land o op =? op)%Z; simpl; [|reflexivity].
    destruct pat as [|c pat]; simpl; [reflexivity|].
    destruct (filepath.Split name) as [d f]. simpl.
    now destruct (filepath.Match (String c pat) f) as [[|]|].
Qed.

Lemma AddDir_then_event_witness :
  fst (AddDir exampleWorld NewFileSystemWatcher "d" "*.txt" Write false) = None /\
  delivered (snd (AddDir exampleWorld NewFileSystemWatcher "d" "*.txt" Write false))
            (mkRaw "d/x.txt" Write) = true /\
  delivered (snd (AddDir exampleWorld NewFileSystemWatcher "d" "*.txt" Write false))
            (mkRaw "d/sub/y.txt" Write) = false.
Proof.
  split; [reflexivity|]. split.
  - rewrite (AddDir_then_event exampleWorld NewFileSystemWatcher "d" "*.txt" Write
               "d/x.txt" Write eq_refl eq_refl).
    reflexivity.
  - rewrite (AddDir_then_event exampleWorld NewFileSystemWatcher "d" "*.txt" Write
               "d/sub/y.txt" Write eq_refl eq_refl).
    reflexivity.
Defined.

Lemma find_uniform (f : watchPath -> bool) (pat : string) (o : Op) (qs : list string) :
  match find f (map (dirEntry pat o) qs) with
  | Some e => exists q, e = dirEntry pat o q /\ existsb (fun q => f (dirEntry pat o q)) qs = true
  | None => existsb (fun q => f (dirEntry pat o q)) qs = false
  end.
Proof.
  induction qs as [|q qs IH]; simpl; [reflexivity|].
  destruct (f (dirEntry pat o q)) eqn:F; simpl; [now exists q|exact IH].
Qed.

(** A registry made of entries for directories that all carry one
    pattern and one set of operations: whichever entry the lookup finds,
    the event is delivered exactly when some entry concerns its path,
    its operations are among those of the entries and its file part
    passes the pattern. *)
Lemma uniform_registry_delivered (fw : FileSystemWatcher) (pat : string) (o : Op)
      (qs : list string) (name : string) (op : Op) :
  watchPaths fw = map (dirEntry pat o) qs ->
  delivered fw (mkRaw name op)
  = existsb (concerns name) qs && (Z.land o op =? op)%Z && patternAccepts pat name.
Proof.
  intros Hws. unfold delivered, filterByOp, filterByPattern. rewrite Hws. simpl.
  assert (Hex : existsb (concerns name) qs
                = existsb (fun q => fullPathMatch name (dirEntry pat o q)) qs
                  || existsb (fun q => directoryMatch name (dirEntry pat o q)) qs).
  { clear. induction qs as [|q qs IH]; simpl; [reflexivity|].
    rewrite IH. unfold concerns, fullPathMatch, directoryMatch. simpl.
    destruct (filepath.Clean name =? filepath.Clean q);
      destruct (filepath.Clean (filepath.Dir name) =? filepath.Clean q);
      simpl; rewrite ?orb_true_r; reflexivity. }
  assert (Hfound : forall e q, e = dirEntry pat o q ->
            (if (Z.land (ops e) op =? op)%Z then true else false)
            && (if Nat.eqb (String.length (pattern e)) 0 then true
                else if negb (isdir e) then true
                else let (_, file) := filepath.Split name in
                     match filepath.Match (pattern e) file with
                     | filepath.ErrBadPattern => false
                     | filepath.Matched m => if m then true else false
                     end)
            = (Z.land o op =? op)%Z && patternAccepts pat name).
  { intros e q ->. unfold patternAccepts. simpl.
    destruct (Z.land o op =? op)%Z; simpl; [|reflexivity].
    destruct pat as [|c pat']; simpl; [reflexivity|].
    destruct (filepath.Split name) as [d f]. simpl.
    now destruct (filepath.Match (String c pat') f) as [[|]|]. }
  unfold findWatchPath.
  pose proof (find_uniform (fullPathMatch name) pat o qs) as F1.
  pose proof (find_uniform (directoryMatch name) pat o qs) as F2.
  rewrite Hex.
  destruct (find (fullPathMatch name) (map (dirEntry pat o) qs)) as [e|].
  - destruct F1 as (q & He & ->). simpl. now apply (Hfound e q).
  - rewrite F1. simpl.
    destruct (find (directoryMatch name) (map (dirEntry pat o) qs)) as [e|].
    + destruct F2 as (q & He & ->). simpl. now apply (Hfound e q).
    + now rewrite F2.
Qed.

(** X16.  A recursive [AddDir] on a new watcher, when every [addDir]
    succeeds: an event is delivered exactly when its path is a directory
    of the walk or lies right below one, up to [Clean], its operations
    are among those given and its file part passes the pattern. The
    subdirectories filter as the root does. *)
Theorem AddDir_recursive_then_event (w : World) (root pat : string) (o : Op)
        (name : string) (op : Op) :
  addable w root ->
  (forall q, In q (walkDirs root (Subtree w root)) -> addable w q) ->
  delivered (snd (AddDir w NewFileSystemWatcher root pat o true)) (mkRaw name op)
  = existsb (concerns name) (root :: walkDirs root (Subtree w root))
    && (Z.land o op =? op)%Z && patternAccepts pat name.
Proof.
  intros Hroot Hall.
  destruct (AddDir_recursive_result w pat o NewFileSystemWatcher root Hroot)
    as [_ Hws].
  { intros q Hq. apply Hall. now apply unreadableDirs_walkDirs. }
  rewrite (filter_addable w _ Hall) in Hws. simpl in Hws.
  now apply (uniform_registry_delivered _ pat o
               (root :: walkDirs root (Subtree w root))).
Qed.

Lemma AddDir_recursive_then_event_witness :
  addable exampleWorld "d" /\
  delivered (snd (AddDir exampleWorld NewFileSystemWatcher "d" "*.txt" Write true))
            (mkRaw "d/sub/y.txt" Write) = true /\
  delivered (snd (AddDir exampleWorld NewFileSystemWatcher "d" "*.txt" Write true))
            (mkRaw "d/sub/y.txt" Chmod) = false /\
  delivered (snd (AddDir exampleWorld NewFileSystemWatcher "d" "*.txt" Write true))
            (mkRaw "d/sub/deeper/y.txt" Write) = false.
Proof.
  assert (Hroot : addable exampleWorld "d") by (split; reflexivity).
  split; [exact Hroot|].
  split; [|split];
    rewrite (AddDir_recursive_then_event exampleWorld "d" "*.txt" Write _ _
               Hroot exampleWorld_addable);
    reflexivity.
Defined.

(** X6.  The event that [WaitEvent] returns is one of the raw events
    received, handed over as it came: the same name and the same
    operations. *)
Theorem WaitEvent_event_unchanged (fw : FileSystemWatcher) (sched : list ready)
        (ev : Event) (err : option error) (rest : list ready) :
  WaitEvent fw sched = Some ((Some ev, err), rest) ->
  In (EventReady (event ev)) sched /\
  Name ev = rawName (event ev) /\
  EventOp ev = rawOp (event ev).
Proof.
  intros H. destruct (WaitEvent_returns_filtered _ _ _ _ _ H) as (_ & Hev & Hin & _).
  split; [exact Hin|]. rewrite Hev at 1 3. now split.
Qed.

Lemma WaitEvent_event_unchanged_witness :
  WaitEvent exampleWatcher exampleSchedule
  = Some ((Some (wrapEvent (mkRaw "d/x.txt" Write)), None), tl (tl exampleSchedule)) /\
  Name (wrapEvent (mkRaw "d/x.txt" Write)) = "d/x.txt"%string /\
  EventOp (wrapEvent (mkRaw "d/x.txt" Write)) = Write.
Proof.
  assert (H : WaitEvent exampleWatcher exampleSchedule
              = Some ((Some (wrapEvent (mkRaw "d/x.txt" Write)), None),
                      tl (tl exampleSchedule))) by reflexivity.
  split; [exact H|].
  destruct (WaitEvent_event_unchanged _ _ _ _ _ H) as (_ & Hn & Ho).
  split; [exact Hn|exact Ho].
Defined.
